(** * Resource arbitration primitives of DinoTools

    A shallow embedding of the three arbitration classes of the repository
    (ProxyManager, UserAgentManager, RequestManager) and of [getTimeAgo] of
    ManageTIME, and the properties their specification states about them.

    JavaScript runs these classes on a single thread: every method body, every
    timer callback and every continuation after an [await] is one
    run-to-completion step.  Each class is therefore modelled as a state
    record together with one function per step; the clock reading
    [Date.now()] of a step is passed in as [now]. *)

From stdpp Require Import gmap strings list fin_maps pretty.

#[local] Set Warnings "-clear-no-such-hyp".

#[local] Open Scope Z_scope.

(** ** JavaScript values used by the classes *)

Module JS.

(** A number that may be [NaN].  Counters and clock readings are always
    integers and are kept in [Z]; only the port cursor can become [NaN]. *)
Inductive number :=
| Num (z : Z)
| NaN.

(** [a + 1] *)
Definition succ (a : number) : number :=
  match a with
  | Num z => Num (z + 1)
  | NaN => NaN
  end.

(** [a % n] where [n] is an array length: the remainder takes the sign of
    the dividend, and a zero divisor gives [NaN]. *)
Definition rem (a : number) (n : nat) : number :=
  match a, n with
  | Num z, S _ => Num (Z.rem z (Z.of_nat n))
  | _, _ => NaN
  end.

(** [arr[i]]: [None] stands for [undefined]. *)
Definition index {A} (arr : list A) (i : number) : option A :=
  match i with
  | Num z => if 0 <=? z then arr !! Z.to_nat z else None
  | NaN => None
  end.

(** [arr.findIndex((x, i) => f(x, i))], counting from [i]. *)
Fixpoint findIndex_from {A} (f : A -> nat -> bool) (i : nat) (arr : list A)
  : option nat :=
  match arr with
  | [] => None
  | x :: rest => if f x i then Some i else findIndex_from f (S i) rest
  end.

Definition findIndex {A} (f : A -> nat -> bool) (arr : list A) : option nat :=
  findIndex_from f 0 arr.

(** What a [throw] carries in these classes: the TypeError of a property
    read on [undefined], and the
    [new Error(`API "${apiKey}" no registrada`)] of RequestManager. *)
Inductive error :=
| TypeError
| NotRegistered (apiKey : string).

(** A call either returns or throws. *)
Inductive completion (A : Type) :=
| Normal (a : A)
| Throw (e : error).
Arguments Normal {A} a.
Arguments Throw {A} e.

End JS.

(** ** ProxyManager *)

Module ProxyPool.

Record ProxyConfig := {
  host : string;
  ports : list Z;
  username : string;
  password : string;
}.

(** [ProxyState extends ProxyConfig]: [config] holds the fields that the
    constructor spreads from the configuration ([...p]).  [port] is [None]
    when it holds [undefined]. *)
Record ProxyState := {
  config : ProxyConfig;
  current : Z;
  portIndex : JS.number;
  port : option Z;
}.

(** What [acquire] resolves with: the state of the proxy as the grant left
    it, and its position in [this.proxies].  Positions are array indexes, so
    they are kept in [nat]; a position past the end of the array reads
    [undefined]. *)
Record AcquiredProxy := {
  proxy : ProxyState;
  index : nat;
}.

(** The fields of the class, followed by what the runtime holds for it:
    the pending [setTimeout(() => this.release(idx), 11000)] timers with
    their due time, the [once('released', res)] listeners of suspended
    [acquire] calls (each with its [excludeIndexes]), and the calls whose
    listener has fired and whose loop has yet to run again. *)
Record ProxyManager := {
  proxies : list ProxyState;
  maxRequests : Z;
  lockedIndexes : gset nat;
  failureCount : gmap nat Z;
  cooldownUntil : gmap nat Z;
  timers : list (nat * Z);
  listeners : list (list nat);
  woken : list (list nat);
}.

Definition constructor (proxies : list ProxyConfig) (maxRequests : Z)
  : ProxyManager :=
  {| proxies :=
       map (fun p => {| config := p; current := 0;
                        portIndex := JS.Num 0;
                        port := ports p !! 0%nat |}) proxies;
     maxRequests := maxRequests;
     lockedIndexes := ∅;
     failureCount := ∅;
     cooldownUntil := ∅;
     timers := [];
     listeners := [];
     woken := [] |}.

(** [!!until && Date.now() < until] *)
Definition isOnCooldown (index : nat) (now : Z) (m : ProxyManager) : bool :=
  match cooldownUntil m !! index with
  | Some until => negb (until =? 0) && (now <? until)
  | None => false
  end.

(** The predicate handed to [findIndex] in [acquire]. *)
Definition available (excludeIndexes : list nat) (now : Z) (m : ProxyManager)
    (p : ProxyState) (i : nat) : bool :=
  (current p <? maxRequests m)
  && negb (bool_decide (i ∈ excludeIndexes))
  && negb (bool_decide (i ∈ lockedIndexes m))
  && negb (isOnCooldown i now m).

(** The three assignments to [state] in the body of [if (idx !== -1)]. *)
Definition take (state : ProxyState) : ProxyState :=
  let portIndex' :=
    JS.rem (JS.succ (portIndex state)) (length (ports (config state))) in
  {| config := config state;
     current := current state + 1;
     portIndex := portIndex';
     port := JS.index (ports (config state)) portIndex' |}.

(** One turn of the [while (true)] loop of [acquire]: either the grant, or
    the registration of a [once('released')] listener. *)
Definition acquire (excludeIndexes : list nat) (now : Z) (m : ProxyManager)
  : ProxyManager * option AcquiredProxy :=
  match JS.findIndex (available excludeIndexes now m) (proxies m) with
  | Some idx =>
      match proxies m !! idx with
      | Some state =>
          (* [state] is the element of [this.proxies] itself: the three
             assignments are writes into the array *)
          let state' := take state in
          ({| proxies := <[idx := state']> (proxies m);
              maxRequests := maxRequests m;
              lockedIndexes := {[idx]} ∪ lockedIndexes m;
              failureCount := failureCount m;
              cooldownUntil := cooldownUntil m;
              timers := timers m ++ [(idx, now + 11000)];
              listeners := listeners m;
              woken := woken m |},
           Some {| proxy := state'; index := idx |})
      | None => (m, None)
      end
  | None =>
      ({| proxies := proxies m;
          maxRequests := maxRequests m;
          lockedIndexes := lockedIndexes m;
          failureCount := failureCount m;
          cooldownUntil := cooldownUntil m;
          timers := timers m;
          listeners := listeners m ++ [excludeIndexes];
          woken := woken m |},
       None)
  end.

(** [new ProxyManager(proxies, maxRequests)]: the constructor body has no
    [throw] and reads nothing that can be [undefined]. *)
Definition new (proxies : list ProxyConfig) (maxRequests : Z)
  : JS.completion ProxyManager :=
  JS.Normal (constructor proxies maxRequests).

(** [release(index)].  When [this.proxies[index]] is [undefined], reading
    [state.current] throws a TypeError before anything is changed.
    [emit('released')] fires every registered listener.  The body never
    writes to the console. *)
Definition release (index : nat) (m : ProxyManager)
  : JS.completion ProxyManager :=
  match proxies m !! index with
  | None => JS.Throw JS.TypeError
  | Some state =>
      JS.Normal
           {| proxies :=
                if 0 <? current state
                then <[index := {| config := config state;
                                   current := current state - 1;
                                   portIndex := portIndex state;
                                   port := port state |}]> (proxies m)
                else proxies m;
              maxRequests := maxRequests m;
              lockedIndexes := lockedIndexes m ∖ {[index]};
              failureCount := failureCount m;
              cooldownUntil := cooldownUntil m;
              timers := timers m;
              listeners := [];
              woken := woken m ++ listeners m |}
  end.

(** [reportFailure(index)]; the boolean tells whether [console.warn] was
    called. *)
Definition reportFailure (index : nat) (now : Z) (m : ProxyManager)
  : ProxyManager * bool :=
  let count := default 0 (failureCount m !! index) + 1 in
  ({| proxies := proxies m;
      maxRequests := maxRequests m;
      lockedIndexes := lockedIndexes m;
      failureCount := <[index := count]> (failureCount m);
      cooldownUntil :=
        if 3 <=? count
        then <[index := now + 10000]> (cooldownUntil m)
        else cooldownUntil m;
      timers := timers m;
      listeners := listeners m;
      woken := woken m |},
   3 <=? count).

Definition resetFailures (index : nat) (m : ProxyManager) : ProxyManager :=
  {| proxies := proxies m;
     maxRequests := maxRequests m;
     lockedIndexes := lockedIndexes m;
     failureCount := <[index := 0]> (failureCount m);
     cooldownUntil := cooldownUntil m;
     timers := timers m;
     listeners := listeners m;
     woken := woken m |}.

Definition getStatus (m : ProxyManager) : list ProxyState := proxies m.

(** *** Runs of the pool

    What can happen to a pool, one run-to-completion step at a time: a call
    of [acquire], the next turn of the loop of the oldest woken [acquire]
    ([Resume]), a call of [release], the firing of the [k]-th pending timer,
    and calls of [reportFailure] and [resetFailures]. *)
Inductive event :=
| Acquire (excludeIndexes : list nat)
| Resume
| Release (index : nat)
| Timeout (k : nat)
| ReportFailure (index : nat)
| ResetFailures (index : nat).

(** What a step shows to the outside: the value [acquire] resolves with,
    the suspension of an [acquire], a [release] that returned or threw, and
    the [console.warn] of [reportFailure] (the only console call of the
    class). *)
Inductive obs :=
| Granted (a : AcquiredProxy)
| Suspended
| Released (index : nat)
| ReleaseThrew (index : nat)
| ConsoleWarn (index : nat).

Definition is_console (o : obs) : bool :=
  match o with
  | ConsoleWarn _ => true
  | _ => false
  end.

Definition observe_acquire (r : ProxyManager * option AcquiredProxy)
  : ProxyManager * list obs :=
  match r.2 with
  | Some a => (r.1, [Granted a])
  | None => (r.1, [Suspended])
  end.

Definition observe_release (index : nat) (m : ProxyManager)
  : ProxyManager * list obs :=
  match release index m with
  | JS.Normal m' => (m', [Released index])
  | JS.Throw _ => (m, [ReleaseThrew index])
  end.

Definition drop_timer (k : nat) (m : ProxyManager) : ProxyManager :=
  {| proxies := proxies m;
     maxRequests := maxRequests m;
     lockedIndexes := lockedIndexes m;
     failureCount := failureCount m;
     cooldownUntil := cooldownUntil m;
     timers := delete k (timers m);
     listeners := listeners m;
     woken := woken m |}.

Definition pop_woken (m : ProxyManager) : ProxyManager :=
  {| proxies := proxies m;
     maxRequests := maxRequests m;
     lockedIndexes := lockedIndexes m;
     failureCount := failureCount m;
     cooldownUntil := cooldownUntil m;
     timers := timers m;
     listeners := listeners m;
     woken := tail (woken m) |}.

(** A timer fires no earlier than its due time; a woken call re-enters the
    loop of [acquire]; an event that cannot happen leaves the pool alone. *)
Definition step (now : Z) (e : event) (m : ProxyManager)
  : ProxyManager * list obs :=
  match e with
  | Acquire excludeIndexes => observe_acquire (acquire excludeIndexes now m)
  | Resume =>
      match woken m with
      | excludeIndexes :: _ =>
          observe_acquire (acquire excludeIndexes now (pop_woken m))
      | [] => (m, [])
      end
  | Release index => observe_release index m
  | Timeout k =>
      match timers m !! k with
      | Some (idx, due) =>
          if due <=? now then observe_release idx (drop_timer k m)
          else (m, [])
      | None => (m, [])
      end
  | ReportFailure index =>
      let r := reportFailure index now m in
      (r.1, if r.2 then [ConsoleWarn index] else [])
  | ResetFailures index => (resetFailures index m, [])
  end.

Fixpoint run (evs : list (Z * event)) (m : ProxyManager)
  : ProxyManager * list obs :=
  match evs with
  | [] => (m, [])
  | (now, e) :: rest =>
      let r := step now e m in
      let r' := run rest r.1 in
      (r'.1, r.2 ++ r'.2)
  end.

(** The ports handed out by the grants of proxy [i], in order. *)
Definition granted_ports (i : nat) (os : list obs) : list (option Z) :=
  omap (fun o => match o with
                 | Granted a =>
                     if decide (index a = i) then Some (port (proxy a))
                     else None
                 | _ => None
                 end) os.

Definition is_grant_of (i : nat) (o : obs) : bool :=
  match o with
  | Granted a => bool_decide (index a = i)
  | _ => false
  end.

Definition is_release_of (i : nat) (o : obs) : bool :=
  match o with
  | Released j => bool_decide (j = i)
  | _ => false
  end.

Definition touches_failures (i : nat) (e : event) : bool :=
  match e with
  | ReportFailure j | ResetFailures j => bool_decide (j = i)
  | _ => false
  end.

(** *** Invariants of the pool *)

(** Every usage counter is between 0 and the capacity. *)
Definition within_capacity (m : ProxyManager) : Prop :=
  forall i p, proxies m !! i = Some p -> 0 <= current p <= maxRequests m.

(** The usage counter of a proxy is 1 when it is locked and 0 when it is
    not. *)
Definition lock_counted (m : ProxyManager) : Prop :=
  forall i p, proxies m !! i = Some p ->
    current p = if decide (i ∈ lockedIndexes m) then 1 else 0.

(** Proxy [i] carries the configuration [c] and its cursor is at [z]. *)
Definition cursor_at (m : ProxyManager) (i : nat) (c : ProxyConfig) (z : Z)
  : Prop :=
  exists p, proxies m !! i = Some p /\ config p = c /\ portIndex p = JS.Num z.

(** Where a grant moves a cursor at [z]. *)
Definition next_cursor (c : ProxyConfig) (z : Z) : Z :=
  (z + 1) mod Z.of_nat (length (ports c)).

End ProxyPool.

(** ** UserAgentManager *)

Module UserAgentPool.

(** [waiters] holds the [resolve] functions of the suspended [acquire]
    calls; a call is named by a number its caller picks. *)
Record UserAgentManager := {
  userAgents : list string;
  maxConcurrentUses : Z;
  usageCount : gmap string Z;
  waiters : list nat;
}.

Definition constructor (userAgents : list string) (maxConcurrentUses : Z)
  : UserAgentManager :=
  {| userAgents := userAgents;
     maxConcurrentUses := maxConcurrentUses;
     usageCount := foldl (fun usage ua => <[ua := 0]> usage) ∅ userAgents;
     waiters := [] |}.

(** [this.usageCount.get(ua) ?? 0] *)
Definition usage (m : UserAgentManager) (ua : string) : Z :=
  default 0 (usageCount m !! ua).

(** [[...this.userAgents].sort(() => Math.random() - 0.5)]: some
    permutation of the list, picked here by the number [r]. *)
Definition shuffle (r : nat) (l : list string) : list string :=
  default l (permutations l !! r).

Definition getAvailableUserAgent (r : nat) (m : UserAgentManager)
  : option string :=
  find (fun ua => usage m ua <? maxConcurrentUses m)
       (shuffle r (userAgents m)).

Definition incrementUsage (userAgent : string) (m : UserAgentManager)
  : UserAgentManager :=
  {| userAgents := userAgents m;
     maxConcurrentUses := maxConcurrentUses m;
     usageCount := <[userAgent := usage m userAgent + 1]> (usageCount m);
     waiters := waiters m |}.

(** What a step shows: the resolution of a caller's [acquire] promise, the
    suspension of a caller, and the two console calls of the class. *)
Inductive obs :=
| Acquired (caller : nat) (ua : string)
| Queued (caller : nat)
| ConsoleLog (ua : string)
| ConsoleWarn (ua : string).

Definition push_waiter (caller : nat) (m : UserAgentManager)
  : UserAgentManager :=
  {| userAgents := userAgents m;
     maxConcurrentUses := maxConcurrentUses m;
     usageCount := usageCount m;
     waiters := waiters m ++ [caller] |}.

(** [acquire()].  [if (availableUA)] is false for [null] and for the empty
    string. *)
Definition acquire (caller r : nat) (m : UserAgentManager)
  : UserAgentManager * list obs :=
  match getAvailableUserAgent r m with
  | Some availableUA =>
      if decide (availableUA = EmptyString)
      then (push_waiter caller m, [ConsoleLog availableUA; Queued caller])
      else (incrementUsage availableUA m,
            [ConsoleLog availableUA; Acquired caller availableUA])
  | None => (push_waiter caller m, [Queued caller])
  end.

(** [release(userAgent)] *)
Definition release (userAgent : string) (m : UserAgentManager)
  : UserAgentManager * list obs :=
  let current := usage m userAgent in
  if 0 <? current then
    let m1 := {| userAgents := userAgents m;
                 maxConcurrentUses := maxConcurrentUses m;
                 usageCount := <[userAgent := current - 1]> (usageCount m);
                 waiters := waiters m |} in
    match waiters m1 with
    | waiter :: rest =>
        (incrementUsage userAgent
           {| userAgents := userAgents m1;
              maxConcurrentUses := maxConcurrentUses m1;
              usageCount := usageCount m1;
              waiters := rest |},
         [Acquired waiter userAgent])
    | [] => (m1, [])
    end
  else (m, [ConsoleWarn userAgent]).

Inductive event :=
| Acquire (caller r : nat)
| Release (userAgent : string).

Definition step (e : event) (m : UserAgentManager)
  : UserAgentManager * list obs :=
  match e with
  | Acquire caller r => acquire caller r m
  | Release userAgent => release userAgent m
  end.

Fixpoint run (evs : list event) (m : UserAgentManager)
  : UserAgentManager * list obs :=
  match evs with
  | [] => (m, [])
  | e :: rest =>
      let r := step e m in
      let r' := run rest r.1 in
      (r'.1, r.2 ++ r'.2)
  end.

(** *** Invariant of the pool *)

(** Every usage counter is between 0 and the capacity. *)
Definition ua_within_capacity (m : UserAgentManager) : Prop :=
  forall ua, 0 <= usage m ua <= maxConcurrentUses m.

End UserAgentPool.

(** ** RequestManager *)

Module RateLimiter.

(** [queue] holds [tryExecute] closures; each belongs to one [request]
    call and is named by the number of that call. *)
Record APILimit := {
  maxRequests : Z;
  windowMs : Z;
  requests : list Z;
  queue : list nat;
}.

(** What the closures of one [request] call capture: the key, and the
    [APILimit] object that [this.limits[apiKey]] was when the call was
    made (by its address in [heap]). *)
Record call := {
  apiKey : string;
  limit : nat;
}.

(** What [this.limits[apiKey]] can be when [apiKey] is no property of
    [this.limits] itself: [undefined], a number, or an object that is no
    [APILimit] (a function, an array, [Object.prototype]). *)
Inductive value :=
| Undefined
| Number (n : Z)
| Object.

(** [!value] is false for an object and for a number other than 0. *)
Definition truthy (v : value) : bool :=
  match v with
  | Undefined => false
  | Number n => negb (n =? 0)
  | Object => true
  end.

(** The properties of [Object.prototype], which [this.limits = {}]
    inherits: [__proto__] is an accessor (its getter returns the prototype
    of the object, its setter replaces it), the others are functions. *)
Definition Object_prototype_keys : list string :=
  ["constructor"; "__defineGetter__"; "__defineSetter__"; "hasOwnProperty";
   "__lookupGetter__"; "__lookupSetter__"; "isPrototypeOf";
   "propertyIsEnumerable"; "toString"; "valueOf"; "__proto__";
   "toLocaleString"].


(** Node's [TIMEOUT_MAX], the largest delay of a timer: 2^31 - 1 ms. *)
Definition TIMEOUT_MAX : Z := 2147483647.

Section Manager.
Context {T E : Type}.

(** How the promise returned by a callback settles. *)
Inductive outcome :=
| Fulfilled (result : T)
| Rejected (err : E).

(** [limits] is the field of the class, [this.limits]: the properties that
    [registerAPI] has set on it, each key referring to an object of [heap].
    The assignment [this.limits["__proto__"] = o] creates no property: it
    runs the setter that [Object.prototype] has for that key, which makes
    [o] the prototype of [this.limits]; and [this.limits["__proto__"]]
    reads the prototype back.  So under the key ["__proto__"], [limits]
    holds the prototype of [this.limits] when [registerAPI] has replaced it;
    without that key the prototype is [Object.prototype].
    The rest is what the runtime holds: the calls made so far,
    the promises they returned once settled, the runs of [tryExecute]
    suspended at [await callback()], and the pending
    [setTimeout(() => tryExecute(), waitTime)] timers with their due
    time. *)
Record RequestManager := {
  limits : gmap string nat;
  heap : list APILimit;
  calls : list call;
  promises : gmap nat outcome;
  awaiting : list nat;
  timers : list (nat * Z);
}.

Definition empty : RequestManager :=
  {| limits := ∅; heap := []; calls := []; promises := ∅;
     awaiting := []; timers := [] |}.

(** What a step shows: a callback being invoked, a promise of [request]
    settling, [request] returning its promise or throwing, and the
    [console.warn] of a full window. *)
Inductive obs :=
| Invoked (id : nat) (now : Z)
| Settled (id : nat) (o : outcome)
| Returned (id : nat)
| Threw (e : JS.error)
| ConsoleWarn (apiKey : string) (waitTime : JS.number).

(** [registerAPI(apiKey, maxRequests, windowMs)]: a new object, which
    [this.limits] holds under [apiKey] from then on. *)
Definition registerAPI (apiKey : string) (maxRequests windowMs : Z)
    (m : RequestManager) : RequestManager :=
  {| limits := <[apiKey := length (heap m)]> (limits m);
     heap := heap m ++ [{| maxRequests := maxRequests;
                           windowMs := windowMs;
                           requests := [];
                           queue := [] |}];
     calls := calls m;
     promises := promises m;
     awaiting := awaiting m;
     timers := timers m |}.

Definition set_limit (a : nat) (l : APILimit) (m : RequestManager)
  : RequestManager :=
  {| limits := limits m;
     heap := <[a := l]> (heap m);
     calls := calls m;
     promises := promises m;
     awaiting := awaiting m;
     timers := timers m |}.

(** [limit.windowMs - (now - limit.requests[0])]; [NaN] when
    [limit.requests] is empty. *)
Definition waitTime (l : APILimit) (now : Z) (reqs : list Z) : JS.number :=
  match reqs with
  | oldest :: _ => JS.Num (windowMs l - (now - oldest))
  | [] => JS.NaN
  end.

(** When the timer of [setTimeout(f, delay)] set at [now] is due.  Node
    replaces a delay that is not between 1 and [TIMEOUT_MAX] ([NaN] too) by
    1. *)
Definition due (now : Z) (delay : JS.number) : Z :=
  match delay with
  | JS.Num d => if (1 <=? d) && (d <=? TIMEOUT_MAX) then now + d else now + 1
  | JS.NaN => now + 1
  end.

(** The closure [tryExecute] of call [id], up to its [await] or to its
    [setTimeout]. *)
Definition tryExecute (id : nat) (now : Z) (m : RequestManager)
  : RequestManager * list obs :=
  match calls m !! id with
  | None => (m, [])
  | Some c =>
      match heap m !! limit c with
      | None => (m, [])
      | Some l =>
          let reqs := filter (fun ts => now - ts < windowMs l) (requests l) in
          if Z.of_nat (length reqs) <? maxRequests l then
            ({| limits := limits m;
                heap := <[limit c := {| maxRequests := maxRequests l;
                                        windowMs := windowMs l;
                                        requests := reqs ++ [now];
                                        queue := queue l |}]> (heap m);
                calls := calls m;
                promises := promises m;
                awaiting := awaiting m ++ [id];
                timers := timers m |},
             [Invoked id now])
          else
            let wait := waitTime l now reqs in
            ({| limits := limits m;
                heap := <[limit c := {| maxRequests := maxRequests l;
                                        windowMs := windowMs l;
                                        requests := reqs;
                                        queue := queue l |}]> (heap m);
                calls := calls m;
                promises := promises m;
                awaiting := awaiting m;
                timers := timers m ++ [(id, due now wait)] |},
             [ConsoleWarn (apiKey c) wait])
      end
  end.

(** [resolve(result)] or [reject(err)]: a promise settles once. *)
Definition settle (id : nat) (o : outcome) (m : RequestManager)
  : RequestManager * list obs :=
  match promises m !! id with
  | Some _ => (m, [])
  | None =>
      ({| limits := limits m;
          heap := heap m;
          calls := calls m;
          promises := <[id := o]> (promises m);
          awaiting := awaiting m;
          timers := timers m |},
       [Settled id o])
  end.

(** The rest of [tryExecute] of call [id] once [callback()] has settled
    with [o]: settle the promise of the call, then take the head of the
    queue and call it. *)
Definition resume (id : nat) (o : outcome) (now : Z) (m : RequestManager)
  : RequestManager * list obs :=
  let s := settle id o m in
  match calls m !! id with
  | None => s
  | Some c =>
      match heap s.1 !! limit c with
      | None => s
      | Some l =>
          match queue l with
          | [] => s
          | next :: rest =>
              let t := tryExecute next now
                         (set_limit (limit c)
                            {| maxRequests := maxRequests l;
                               windowMs := windowMs l;
                               requests := requests l;
                               queue := rest |} s.1) in
              (t.1, s.2 ++ t.2)
          end
      end
  end.

(** What [Object.prototype] has for [key], [proto] being the prototype
    of the object that is read. *)
Definition from_Object_prototype (key : string) (proto : value) : value :=
  if decide (key = "__proto__") then proto
  else if decide (key ∈ Object_prototype_keys) then Object
  else Undefined.

(** [this.limits[key]] for a [key] that is no property of [this.limits]
    itself: the value found along the prototype chain.  When the prototype
    is an [APILimit] object, that object comes first (its numbers, and its
    two arrays), then [Object.prototype]. *)
Definition inherited (key : string) (m : RequestManager) : value :=
  match limits m !! "__proto__" with
  | None => from_Object_prototype key Object
  | Some a =>
      match heap m !! a with
      | None => Undefined
      | Some l =>
          if decide (key = "maxRequests") then Number (maxRequests l)
          else if decide (key = "windowMs") then Number (windowMs l)
          else if decide (key = "requests") then Object
          else if decide (key = "queue") then Object
          else from_Object_prototype key Object
      end
  end.

(** [request(apiKey, callback)]: it throws for a key under which
    [this.limits] reads a falsy value (the promise of the async function is
    rejected), else it pushes [tryExecute] and calls it when the queue holds
    nothing else.  When the value read is truthy and no [APILimit] (it was
    inherited), its [queue] is [undefined] and [limit.queue.push] throws a
    TypeError inside the executor of the promise, which rejects the promise
    with it.  The callback is an [AsyncCallback]: calling it returns a
    promise, whose settling is a later step ([resume]). *)
Definition request (apiKey : string) (now : Z) (m : RequestManager)
  : RequestManager * list obs :=
  match limits m !! apiKey with
  | None =>
      if truthy (inherited apiKey m)
      then (m, [Threw JS.TypeError])
      else (m, [Threw (JS.NotRegistered apiKey)])
  | Some a =>
      match heap m !! a with
      | None => (m, [])
      | Some l =>
          let id := length (calls m) in
          let l' := {| maxRequests := maxRequests l;
                       windowMs := windowMs l;
                       requests := requests l;
                       queue := queue l ++ [id] |} in
          let m1 := {| limits := limits m;
                       heap := <[a := l']> (heap m);
                       calls := calls m ++ [{| apiKey := apiKey; limit := a |}];
                       promises := promises m;
                       awaiting := awaiting m;
                       timers := timers m |} in
          if decide (length (queue l') = 1%nat)
          then let t := tryExecute id now m1 in (t.1, t.2 ++ [Returned id])
          else (m1, [Returned id])
      end
  end.

Definition drop_awaiting (k : nat) (m : RequestManager) : RequestManager :=
  {| limits := limits m;
     heap := heap m;
     calls := calls m;
     promises := promises m;
     awaiting := delete k (awaiting m);
     timers := timers m |}.

Definition drop_timer (k : nat) (m : RequestManager) : RequestManager :=
  {| limits := limits m;
     heap := heap m;
     calls := calls m;
     promises := promises m;
     awaiting := awaiting m;
     timers := delete k (timers m) |}.

(** What can happen to a manager: its two methods are called, the
    callback promise of the [k]-th suspended run settles, the [k]-th
    pending timer fires (no earlier than it is due). *)
Inductive event :=
| RegisterAPI (apiKey : string) (maxRequests windowMs : Z)
| Request (apiKey : string)
| Settle (k : nat) (o : outcome)
| Fire (k : nat).

Definition step (now : Z) (e : event) (m : RequestManager)
  : RequestManager * list obs :=
  match e with
  | RegisterAPI apiKey maxRequests windowMs =>
      (registerAPI apiKey maxRequests windowMs m, [])
  | Request apiKey => request apiKey now m
  | Settle k o =>
      match awaiting m !! k with
      | Some id => resume id o now (drop_awaiting k m)
      | None => (m, [])
      end
  | Fire k =>
      match timers m !! k with
      | Some (id, t) =>
          if t <=? now then tryExecute id now (drop_timer k m) else (m, [])
      | None => (m, [])
      end
  end.

Fixpoint run (evs : list (Z * event)) (m : RequestManager)
  : RequestManager * list obs :=
  match evs with
  | [] => (m, [])
  | (now, e) :: rest =>
      let r := step now e m in
      let r' := run rest r.1 in
      (r'.1, r.2 ++ r'.2)
  end.

(** The invocations of callbacks among the observations: which call's
    callback, and when. *)
Definition invocations (os : list obs) : list (nat * Z) :=
  omap (fun o => match o with
                 | Invoked id now => Some (id, now)
                 | _ => None
                 end) os.


(** *** Invariants and scenarios of a channel *)


(** The heap holds one channel of two requests per second whose window
    holds two time stamps, neither negative. *)
Definition window_full (h : list APILimit) : Prop :=
  exists l t1 t2,
    h = [l] /\ maxRequests l = 2 /\ windowMs l = 1000
    /\ requests l = [t1; t2] /\ 0 <= t1 /\ 0 <= t2.

(** Whether an event is a call of [registerAPI]. *)
Definition is_register (e : event) : bool :=
  match e with
  | RegisterAPI _ _ _ => true
  | _ => false
  end.

(** A step of a schedule that registers nothing and ends before the clock
    reads 1000. *)
Definition early (te : Z * event) : Prop :=
  0 <= te.1 < 1000 /\ is_register te.2 = false.

(** The first call is running, the others are queued behind it. *)
Definition first_running (m : RequestManager) : Prop :=
  exists l rest c,
    heap m = [l] /\ maxRequests l = 2 /\ windowMs l = 1000
    /\ requests l = [0] /\ queue l = 0%nat :: rest
    /\ awaiting m = [0%nat] /\ timers m = []
    /\ calls m !! 0%nat = Some c /\ limit c = 0%nat.

(** Three calls at time 0 on a channel of two requests per second. *)
Definition three_at_zero (key : string) : list (Z * event) :=
  [(0, RegisterAPI key 2 1000);
   (0, Request key); (0, Request key); (0, Request key)].

(** A manager with the single channel [key], [n] calls made on it, no
    promise settled and no timer pending. *)
Definition single_channel (key : string) (l : APILimit) (n : nat)
    (aw : list nat) : RequestManager :=
  {| limits := <[key := 0%nat]> ∅;
     heap := [l];
     calls := replicate n {| apiKey := key; limit := 0 |};
     promises := ∅;
     awaiting := aw;
     timers := [] |}.

(** A channel of two requests per second. *)
Definition two_per_second (reqs : list Z) (q : list nat) : APILimit :=
  {| maxRequests := 2; windowMs := 1000; requests := reqs; queue := q |}.

End Manager.

Arguments outcome : clear implicits.
Arguments RequestManager : clear implicits.
Arguments obs : clear implicits.
Arguments event : clear implicits.

End RateLimiter.

(** ** Pools and runs used as examples *)

Definition three_ports : ProxyPool.ProxyConfig :=
  {| ProxyPool.host := "10.0.0.1";
     ProxyPool.ports := [8000; 8001; 8002];
     ProxyPool.username := "user";
     ProxyPool.password := "secret" |}.

Definition no_ports : ProxyPool.ProxyConfig :=
  {| ProxyPool.host := "10.0.0.2";
     ProxyPool.ports := [];
     ProxyPool.username := "user";
     ProxyPool.password := "secret" |}.

(** Two acquisitions, a release by the caller, then the auto-release of the
    first grant. *)
Definition busy_day : list (Z * ProxyPool.event) :=
  [(0, ProxyPool.Acquire []); (1, ProxyPool.Acquire []);
   (5, ProxyPool.Release 0); (6, ProxyPool.Resume);
   (11000, ProxyPool.Timeout 0)].

(** Three failures of proxy 0, the last one when the clock reads 0. *)
Definition three_failures : list (Z * ProxyPool.event) :=
  [(0, ProxyPool.ReportFailure 0); (0, ProxyPool.ReportFailure 0);
   (0, ProxyPool.ReportFailure 0)].

(** ** Readings of a run of a ProxyManager *)

Module ProxyRuns.
Import ProxyPool.

(** The clock readings of the calls of [reportFailure(i)] in a run. *)
Definition report_times (i : nat) (evs : list (Z * event)) : list Z :=
  omap (fun te => match te.2 with
                  | ReportFailure j => if decide (j = i) then Some te.1 else None
                  | _ => None
                  end) evs.

Definition is_reset_of (i : nat) (e : event) : bool :=
  match e with
  | ResetFailures j => bool_decide (j = i)
  | _ => false
  end.

Definition is_timeout (e : event) : bool :=
  match e with
  | Timeout _ => true
  | _ => false
  end.

Definition is_grant (o : obs) : bool :=
  match o with
  | Granted _ => true
  | _ => false
  end.

(** Every pending timer is for a proxy of the pool. *)
Definition timers_in_range (m : ProxyManager) : Prop :=
  Forall (fun t => (t.1 < length (proxies m))%nat) (timers m).

End ProxyRuns.

(** ** Readings of a run of a UserAgentManager *)

Module UserAgentRuns.
Import UserAgentPool.

(** The steps of a run: each event with what it showed. *)
Fixpoint steps (evs : list event) (m : UserAgentManager)
  : list (event * list obs) :=
  match evs with
  | [] => []
  | e :: rest => (e, (step e m).2) :: steps rest (step e m).1
  end.

(** The callers that a step of [acquire] suspended. *)
Definition queued_by (s : event * list obs) : list nat :=
  match s.1 with
  | Acquire _ _ =>
      omap (fun o => match o with Queued c => Some c | _ => None end) s.2
  | Release _ => []
  end.

(** The suspended callers that a step of [release] resolved. *)
Definition served_by (s : event * list obs) : list nat :=
  match s.1 with
  | Acquire _ _ => []
  | Release _ =>
      omap (fun o => match o with Acquired c _ => Some c | _ => None end) s.2
  end.

(** How many promises of [acquire] a step resolved with [ua]. *)
Definition grants_of (ua : string) (s : event * list obs) : nat :=
  length (List.filter (fun o => match o with
                                | Acquired _ u => bool_decide (u = ua)
                                | _ => false
                                end) s.2).

(** Whether a step is a [release(ua)] that did not warn. *)
Definition returns_of (ua : string) (s : event * list obs) : nat :=
  match s.1 with
  | Release u =>
      if bool_decide (u = ua)
         && negb (existsb (fun o => match o with
                                    | ConsoleWarn _ => true
                                    | _ => false
                                    end) s.2)
      then 1 else 0
  | Acquire _ _ => 0
  end.

(** Nobody waits while a user-agent of the pool is below capacity. *)
Definition waits_only_when_full (m : UserAgentManager) : Prop :=
  waiters m <> [] ->
  forall ua, ua ∈ userAgents m -> maxConcurrentUses m <= usage m ua.

End UserAgentRuns.

(** ** Readings of a run of a RequestManager *)

Module RateLimiterRuns.
Import RateLimiter.

(** One invocation of a callback: the channel (the address of its
    [APILimit] object), the window and the limit of that channel, and the
    clock reading. *)
Record invocation := {
  channel : nat;
  window : Z;
  allowance : Z;
  time : Z;
}.

(** The clock readings of the invocations on channel [a]. *)
Definition times_of (a : nat) (j : list invocation) : list Z :=
  omap (fun i => if decide (channel i = a) then Some (time i) else None) j.

(** Each invocation finds fewer than [maxRequests] earlier invocations of
    its channel within its window. *)
Definition within_rate (j : list invocation) : Prop :=
  forall k i,
    j !! k = Some i ->
    Z.of_nat (length (filter (fun ts => time i - ts < window i)
                        (times_of (channel i) (take k j))))
    < allowance i.

(** The clock never goes back: the readings of a run, from [now] on. *)
Fixpoint clock_from (now : Z) (ts : list Z) : Prop :=
  match ts with
  | [] => True
  | t :: rest => now <= t /\ clock_from t rest
  end.

(** No channel stores more time stamps than it allows. *)
Definition windows_bounded (h : list APILimit) : Prop :=
  Forall (fun l => Z.of_nat (length (requests l)) <= Z.max 0 (maxRequests l)) h.

(** What the stored time stamps are: for every reading from [now] on, the
    stored time stamps of a channel that are still in its window are the
    invocations of the channel that are still in its window. *)
Definition windows_recorded (now : Z) (h : list APILimit)
    (j : list invocation) : Prop :=
  Forall (fun i => (channel i < length h)%nat) j
  /\ forall a l now',
       h !! a = Some l -> now <= now' ->
       filter (fun ts => now' - ts < windowMs l) (requests l)
       = filter (fun ts => now' - ts < windowMs l) (times_of a j).

Section Manager.
Context {T E : Type}.

(** The invocations that the observations of a step report, read in the
    state the step has left. *)
Definition invoked_on (m : RequestManager T E) (os : list (obs T E))
  : list invocation :=
  omap (fun o => match o with
                 | Invoked id now =>
                     match calls m !! id with
                     | Some c =>
                         match heap m !! limit c with
                         | Some l => Some {| channel := limit c;
                                             window := windowMs l;
                                             allowance := maxRequests l;
                                             time := now |}
                         | None => None
                         end
                     | None => None
                     end
                 | _ => None
                 end) os.

(** The invocations of a run, in order. *)
Fixpoint journal (evs : list (Z * event T E)) (m : RequestManager T E)
  : list invocation :=
  match evs with
  | [] => []
  | (now, e) :: rest =>
      invoked_on (step now e m).1 (step now e m).2
      ++ journal rest (step now e m).1
  end.






End Manager.

End RateLimiterRuns.

(** ** ManageTIME *)

Module TimeAgo.

(** [getTimeAgo(inputDate)], from the test of [date.getTime()] on.  [time]
    is [date.getTime()], [NaN] for an invalid date; [nowTime] and
    [inputTime] are the values of the two [Date.UTC] calls, the clock and
    the date in milliseconds, each a whole number of seconds.  The
    differences are whole numbers, [Math.floor(x / n)] is [x / n] on [Z],
    and a template literal writes a whole number in decimal digits, with
    its sign when negative.  Strings are held as their UTF-8 bytes. *)
Definition getTimeAgo (time : JS.number) (nowTime inputTime : Z) : string :=
  match time with
  | JS.NaN => "Fecha inválida"
  | JS.Num _ =>
      let diffMs := nowTime - inputTime in
      let diffSec := diffMs / 1000 in
      if diffSec <? 60 then pretty diffSec +:+ " sec ago" else
      let diffMin := diffSec / 60 in
      if diffMin <? 60 then pretty diffMin +:+ " min ago" else
      let diffHrs := diffMin / 60 in
      if diffHrs <? 24 then pretty diffHrs +:+ " hrs ago" else
      let diffDays := diffHrs / 24 in
      pretty diffDays +:+ " days ago"
  end.

End TimeAgo.

(** * Properties *)

(** ** ProxyManager *)

Section ProxyPoolFacts.
Import ProxyPool.

Lemma findIndex_from_Some {A} (f : A -> nat -> bool) (arr : list A) (i k : nat) :
  JS.findIndex_from f i arr = Some k ->
  exists x, (i <= k)%nat /\ arr !! (k - i)%nat = Some x /\ f x k = true.
Proof.
  revert i. induction arr as [|x rest IH]; intros i; simpl; [done|].
  destruct (f x i) eqn:Hf.
  - intros [= <-]. exists x. rewrite Nat.sub_diag. by repeat split.
  - intros Hk. destruct (IH _ Hk) as (y & Hle & Hy & Hfy).
    exists y. split; [lia|]. split; [|done].
    replace (k - i)%nat with (S (k - S i)) by lia. done.
Qed.

Lemma findIndex_Some {A} (f : A -> nat -> bool) (arr : list A) (k : nat) :
  JS.findIndex f arr = Some k ->
  exists x, arr !! k = Some x /\ f x k = true.
Proof.
  intros H. destruct (findIndex_from_Some _ _ _ _ H) as (x & _ & Hx & Hf).
  rewrite Nat.sub_0_r in Hx. eauto.
Qed.

(** What a grant is made of. *)
Lemma acquire_granted excl now m m' a :
  acquire excl now m = (m', Some a) ->
  exists state,
    proxies m !! index a = Some state
    /\ available excl now m state (index a) = true
    /\ proxy a = take state
    /\ proxies m' = <[index a := take state]> (proxies m)
    /\ lockedIndexes m' = {[index a]} ∪ lockedIndexes m
    /\ failureCount m' = failureCount m
    /\ cooldownUntil m' = cooldownUntil m
    /\ maxRequests m' = maxRequests m.
Proof.
  unfold acquire.
  destruct (JS.findIndex _ _) as [idx|] eqn:Hfind; [|intros [= _ ?]; done].
  destruct (findIndex_Some _ _ _ Hfind) as (state & Hst & Hav).
  rewrite Hst. intros [= <- <-]. simpl. exists state. by repeat split.
Qed.

Lemma acquire_suspended excl now m m' :
  acquire excl now m = (m', None) ->
  proxies m' = proxies m
  /\ lockedIndexes m' = lockedIndexes m
  /\ failureCount m' = failureCount m
  /\ cooldownUntil m' = cooldownUntil m
  /\ maxRequests m' = maxRequests m.
Proof.
  unfold acquire.
  destruct (JS.findIndex _ _) as [idx|] eqn:Hfind.
  - destruct (proxies m !! idx); intros [= <-]; done.
  - intros [= <-]. done.
Qed.

Lemma release_Some index m m' :
  release index m = JS.Normal m' ->
  exists state,
    proxies m !! index = Some state
    /\ proxies m' =
         (if 0 <? current state
          then <[index := {| config := config state;
                             current := current state - 1;
                             portIndex := portIndex state;
                             port := port state |}]> (proxies m)
          else proxies m)
    /\ lockedIndexes m' = lockedIndexes m ∖ {[index]}
    /\ failureCount m' = failureCount m
    /\ cooldownUntil m' = cooldownUntil m
    /\ maxRequests m' = maxRequests m.
Proof.
  unfold release. destruct (proxies m !! index) as [state|]; [|done].
  intros [= <-]. exists state. by repeat split.
Qed.

(** *** The usage counter stays within the capacity *)

Lemma within_capacity_acquire excl now m :
  within_capacity m -> within_capacity (acquire excl now m).1.
Proof.
  intros Hm. destruct (acquire excl now m) as [m' [a|]] eqn:Hacq; simpl.
  - destruct (acquire_granted _ _ _ _ _ Hacq)
      as (state & Hst & Hav & _ & Hpx & _ & _ & _ & Hmax).
    intros i p. rewrite Hpx, Hmax.
    destruct (decide (i = index a)) as [->|Hne].
    + rewrite list_lookup_insert_eq by (by eapply lookup_lt_Some).
      intros [= <-]. simpl. specialize (Hm _ _ Hst).
      unfold available in Hav.
      repeat (apply andb_prop in Hav as [Hav ?]).
      apply Z.ltb_lt in Hav. lia.
    + rewrite list_lookup_insert_ne by done. apply Hm.
  - destruct (acquire_suspended _ _ _ _ Hacq) as (Hpx & _ & _ & _ & Hmax).
    intros i p. rewrite Hpx, Hmax. apply Hm.
Qed.

Lemma within_capacity_release index m m' :
  release index m = JS.Normal m' -> within_capacity m -> within_capacity m'.
Proof.
  intros Hrel Hm.
  destruct (release_Some _ _ _ Hrel) as (state & Hst & Hpx & _ & _ & _ & Hmax).
  intros i p. rewrite Hpx, Hmax.
  destruct (0 <? current state) eqn:Hpos; [|apply Hm].
  apply Z.ltb_lt in Hpos.
  destruct (decide (i = index)) as [->|Hne].
  - rewrite list_lookup_insert_eq by (by eapply lookup_lt_Some).
    intros [= <-]. simpl. specialize (Hm _ _ Hst). lia.
  - rewrite list_lookup_insert_ne by done. apply Hm.
Qed.

Lemma within_capacity_observe_release index m :
  within_capacity m -> within_capacity (observe_release index m).1.
Proof.
  intros Hm. unfold observe_release.
  destruct (release index m) as [m'|err] eqn:Hrel; simpl; [|done].
  by eapply within_capacity_release.
Qed.

Lemma observe_acquire_fst r : (observe_acquire r).1 = r.1.
Proof. unfold observe_acquire. by destruct (r.2). Qed.

Lemma within_capacity_step now e m :
  within_capacity m -> within_capacity (step now e m).1.
Proof.
  intros Hm. destruct e as [excl| |idx|k|idx|idx]; simpl.
  - rewrite observe_acquire_fst. by apply within_capacity_acquire.
  - destruct (woken m) as [|excl rest]; [done|].
    rewrite observe_acquire_fst. by apply within_capacity_acquire.
  - by apply within_capacity_observe_release.
  - destruct (timers m !! k) as [[idx due]|]; [|done].
    destruct (due <=? now); [|done].
    by apply within_capacity_observe_release.
  - done.
  - done.
Qed.

Lemma within_capacity_run evs m :
  within_capacity m -> within_capacity (run evs m).1.
Proof.
  revert m. induction evs as [|[now e] rest IH]; intros m Hm; simpl; [done|].
  apply IH. by apply within_capacity_step.
Qed.

Lemma within_capacity_constructor cfgs maxReq :
  0 <= maxReq -> within_capacity (constructor cfgs maxReq).
Proof.
  intros Hmax i p. simpl. rewrite list_lookup_fmap.
  destruct (cfgs !! i); simpl; [|done]. intros [= <-]. simpl. lia.
Qed.

Lemma maxRequests_step now e m : maxRequests (step now e m).1 = maxRequests m.
Proof.
  destruct e as [excl| |idx|k|idx|idx]; simpl; try done.
  - rewrite observe_acquire_fst.
    destruct (acquire excl now m) as [m' [a|]] eqn:H; simpl.
    + by destruct (acquire_granted _ _ _ _ _ H) as (?&?&?&?&?&?&?&?&?).
    + by destruct (acquire_suspended _ _ _ _ H) as (?&?&?&?&?).
  - destruct (woken m) as [|excl rest]; [done|].
    rewrite observe_acquire_fst.
    destruct (acquire excl now (pop_woken m)) as [m' [a|]] eqn:H; simpl.
    + destruct (acquire_granted _ _ _ _ _ H) as (?&?&?&?&?&?&?&?&Hmax).
      exact Hmax.
    + destruct (acquire_suspended _ _ _ _ H) as (?&?&?&?&Hmax).
      exact Hmax.
  - unfold observe_release. destruct (release idx m) as [m'|err] eqn:H; [|done].
    by destruct (release_Some _ _ _ H) as (?&?&?&?&?&?&?).
  - destruct (timers m !! k) as [[idx due]|]; [|done].
    destruct (due <=? now); [|done].
    unfold observe_release.
    destruct (release idx (drop_timer k m)) as [m'|err] eqn:H; [|done].
    destruct (release_Some _ _ _ H) as (?&?&?&?&?&?&Hmax).
    exact Hmax.
Qed.

Lemma maxRequests_run evs m : maxRequests (run evs m).1 = maxRequests m.
Proof.
  revert m. induction evs as [|[now e] rest IH]; intros m; simpl; [done|].
  rewrite IH. apply maxRequests_step.
Qed.


(** *** Cooldown *)

Lemma available_true excl now m p i :
  available excl now m p i = true ->
  current p < maxRequests m
  /\ (i ∉ excl)
  /\ (i ∉ lockedIndexes m)
  /\ isOnCooldown i now m = false.
Proof.
  unfold available. intros H.
  apply andb_prop in H as [H Hcd].
  apply andb_prop in H as [H Hlk].
  apply andb_prop in H as [Hcur Hex].
  apply Z.ltb_lt in Hcur.
  apply negb_true_iff in Hcd, Hlk, Hex.
  apply bool_decide_eq_false in Hlk, Hex. done.
Qed.

Lemma isOnCooldown_false index now m until :
  0 <= now ->
  isOnCooldown index now m = false ->
  cooldownUntil m !! index = Some until ->
  until <= now.
Proof.
  unfold isOnCooldown. intros Hnow H Hu. rewrite Hu in H.
  apply andb_false_iff in H as [H|H].
  - apply negb_false_iff, Z.eqb_eq in H. lia.
  - apply Z.ltb_ge in H. done.
Qed.

Lemma isOnCooldown_set index now m until :
  cooldownUntil m !! index = Some until ->
  0 < until ->
  isOnCooldown index now m = (now <? until).
Proof.
  unfold isOnCooldown. intros -> Hpos.
  destruct (until =? 0) eqn:E; [apply Z.eqb_eq in E; lia|done].
Qed.

(** Every grant of a step comes from the scan of [acquire] on the state
    the step started from, up to the bookkeeping of woken calls. *)
Lemma step_granted now e m a :
  Granted a ∈ (step now e m).2 ->
  exists excl m0 m',
    acquire excl now m0 = (m', Some a)
    /\ proxies m0 = proxies m
    /\ maxRequests m0 = maxRequests m
    /\ lockedIndexes m0 = lockedIndexes m
    /\ failureCount m0 = failureCount m
    /\ cooldownUntil m0 = cooldownUntil m
    /\ (step now e m).1 = m'.
Proof.
  destruct e as [excl| |idx|k|idx|idx]; simpl.
  - unfold observe_acquire.
    destruct (acquire excl now m) as [m' [a'|]] eqn:H; simpl.
    + intros [= ->]%list_elem_of_singleton. exists excl, m, m'. by repeat split.
    + intros [=]%list_elem_of_singleton.
  - destruct (woken m) as [|excl rest]; simpl; [by intros ?%not_elem_of_nil|].
    unfold observe_acquire.
    destruct (acquire excl now (pop_woken m)) as [m' [a'|]] eqn:H; simpl.
    + intros [= ->]%list_elem_of_singleton.
      exists excl, (pop_woken m), m'. by repeat split.
    + intros [=]%list_elem_of_singleton.
  - unfold observe_release. destruct (release idx m); simpl;
      by intros [=]%list_elem_of_singleton.
  - destruct (timers m !! k) as [[idx due]|]; simpl;
      [|by intros ?%not_elem_of_nil].
    destruct (due <=? now); simpl; [|by intros ?%not_elem_of_nil].
    unfold observe_release. destruct (release idx _); simpl;
      by intros [=]%list_elem_of_singleton.
  - destruct (3 <=? _); simpl;
      [by intros [=]%list_elem_of_singleton|by intros ?%not_elem_of_nil].
  - by intros ?%not_elem_of_nil.
Qed.

(** *** The lock set *)

Lemma acquire_not_locked excl now m m' a :
  acquire excl now m = (m', Some a) -> index a ∉ lockedIndexes m.
Proof.
  intros H. destruct (acquire_granted _ _ _ _ _ H) as (st & _ & Hav & _).
  by apply available_true in Hav as (_ & _ & Hlk & _).
Qed.

Lemma acquire_locks excl now m m' a :
  acquire excl now m = (m', Some a) -> index a ∈ lockedIndexes m'.
Proof.
  intros H.
  destruct (acquire_granted _ _ _ _ _ H) as (st & _ & _ & _ & _ & Hlk & _).
  rewrite Hlk. set_solver.
Qed.

Lemma acquire_keeps_locks excl now m i :
  i ∈ lockedIndexes m -> i ∈ lockedIndexes (acquire excl now m).1.
Proof.
  intros Hi. destruct (acquire excl now m) as [m' [a|]] eqn:H; simpl.
  - destruct (acquire_granted _ _ _ _ _ H) as (st & _ & _ & _ & _ & Hlk & _).
    rewrite Hlk. set_solver.
  - destruct (acquire_suspended _ _ _ _ H) as (_ & Hlk & _). by rewrite Hlk.
Qed.


Lemma observe_release_keeps_locks idx m i :
  i ∈ lockedIndexes m ->
  forallb (fun o => negb (is_release_of i o)) (observe_release idx m).2 = true ->
  i ∈ lockedIndexes (observe_release idx m).1
  /\ forallb (fun o => negb (is_grant_of i o)) (observe_release idx m).2 = true.
Proof.
  intros Hi. unfold observe_release.
  destruct (release idx m) as [m'|err] eqn:H; simpl; [|done].
  rewrite andb_true_r. intros Hne%negb_true_iff%bool_decide_eq_false.
  split; [|done].
  destruct (release_Some _ _ _ H) as (st & _ & _ & Hlk & _).
  rewrite Hlk. set_solver.
Qed.

Lemma observe_acquire_keeps_locks excl now m i :
  i ∈ lockedIndexes m ->
  i ∈ lockedIndexes (observe_acquire (acquire excl now m)).1
  /\ forallb (fun o => negb (is_grant_of i o))
       (observe_acquire (acquire excl now m)).2 = true.
Proof.
  intros Hi. rewrite observe_acquire_fst.
  split; [by apply acquire_keeps_locks|].
  unfold observe_acquire.
  destruct (acquire excl now m) as [m' [a|]] eqn:H; simpl; [|done].
  rewrite andb_true_r. apply negb_true_iff, bool_decide_eq_false.
  intros <-. by apply acquire_not_locked in H.
Qed.

Lemma step_keeps_locks now e m i :
  i ∈ lockedIndexes m ->
  forallb (fun o => negb (is_release_of i o)) (step now e m).2 = true ->
  i ∈ lockedIndexes (step now e m).1
  /\ forallb (fun o => negb (is_grant_of i o)) (step now e m).2 = true.
Proof.
  intros Hi. destruct e as [excl| |idx|k|idx|idx]; simpl.
  - intros _. by apply observe_acquire_keeps_locks.
  - destruct (woken m) as [|excl rest]; [done|].
    intros _. by apply (observe_acquire_keeps_locks excl now (pop_woken m)).
  - by apply observe_release_keeps_locks.
  - destruct (timers m !! k) as [[idx due]|]; [|done].
    destruct (due <=? now); [|done].
    by apply (observe_release_keeps_locks idx (drop_timer k m)).
  - intros _. split; [done|]. by destruct (3 <=? _).
  - done.
Qed.

Lemma run_keeps_locks evs m i :
  i ∈ lockedIndexes m ->
  forallb (fun o => negb (is_release_of i o)) (run evs m).2 = true ->
  i ∈ lockedIndexes (run evs m).1
  /\ forallb (fun o => negb (is_grant_of i o)) (run evs m).2 = true.
Proof.
  revert m. induction evs as [|[now e] rest IH]; intros m Hi; simpl; [done|].
  rewrite !forallb_app. intros [H1 H2]%andb_prop.
  destruct (step_keeps_locks _ _ _ _ Hi H1) as [Hi' Hg1].
  destruct (IH _ Hi' H2) as [Hi'' Hg2].
  split; [done|]. by rewrite Hg1, Hg2.
Qed.


(** *** Failure counters are touched by their own two methods only *)

Lemma acquire_failures excl now m :
  failureCount (acquire excl now m).1 = failureCount m
  /\ cooldownUntil (acquire excl now m).1 = cooldownUntil m.
Proof.
  destruct (acquire excl now m) as [m' [a|]] eqn:H; simpl.
  - by destruct (acquire_granted _ _ _ _ _ H) as (?&?&?&?&?&?&?&?&?).
  - by destruct (acquire_suspended _ _ _ _ H) as (?&?&?&?&?).
Qed.

Lemma observe_release_failures idx m :
  failureCount (observe_release idx m).1 = failureCount m
  /\ cooldownUntil (observe_release idx m).1 = cooldownUntil m.
Proof.
  unfold observe_release. destruct (release idx m) as [m'|err] eqn:H; [|done].
  by destruct (release_Some _ _ _ H) as (?&?&?&?&?&?&?).
Qed.

Lemma step_failures_frame now e m i :
  touches_failures i e = false ->
  failureCount (step now e m).1 !! i = failureCount m !! i
  /\ cooldownUntil (step now e m).1 !! i = cooldownUntil m !! i.
Proof.
  destruct e as [excl| |idx|k|idx|idx]; simpl.
  - intros _. rewrite observe_acquire_fst.
    by destruct (acquire_failures excl now m) as [-> ->].
  - intros _. destruct (woken m) as [|excl rest]; [done|].
    rewrite observe_acquire_fst.
    by destruct (acquire_failures excl now (pop_woken m)) as [-> ->].
  - intros _. by destruct (observe_release_failures idx m) as [-> ->].
  - intros _. destruct (timers m !! k) as [[idx due]|]; [|done].
    destruct (due <=? now); [|done].
    by destruct (observe_release_failures idx (drop_timer k m)) as [-> ->].
  - intros Hne%bool_decide_eq_false.
    rewrite lookup_insert_ne by done. split; [done|].
    destruct (3 <=? _); [|done]. by rewrite lookup_insert_ne.
  - intros Hne%bool_decide_eq_false. by rewrite lookup_insert_ne.
Qed.

Lemma run_failures_frame evs m i :
  Forall (fun te => touches_failures i te.2 = false) evs ->
  failureCount (run evs m).1 !! i = failureCount m !! i
  /\ cooldownUntil (run evs m).1 !! i = cooldownUntil m !! i.
Proof.
  intros H. revert m. induction H as [|[now e] rest He _ IH]; intros m; [done|].
  simpl. destruct (IH (step now e m).1) as [-> ->].
  by apply step_failures_frame.
Qed.

Lemma run_app evs1 evs2 m :
  run (evs1 ++ evs2) m
  = ((run evs2 (run evs1 m).1).1, (run evs1 m).2 ++ (run evs2 (run evs1 m).1).2).
Proof.
  revert m. induction evs1 as [|[now e] rest IH]; intros m; simpl.
  - by destruct (run evs2 m).
  - rewrite IH. simpl. by rewrite app_assoc.
Qed.

Lemma reportFailure_count i now m :
  failureCount (reportFailure i now m).1 !! i
  = Some (default 0 (failureCount m !! i) + 1).
Proof. simpl. by rewrite lookup_insert_eq. Qed.

Lemma reportFailure_cooldown i now m :
  cooldownUntil (reportFailure i now m).1 !! i
  = if 3 <=? default 0 (failureCount m !! i) + 1
    then Some (now + 10000) else cooldownUntil m !! i.
Proof. simpl. destruct (3 <=? _); [|done]. by rewrite lookup_insert_eq. Qed.

Lemma step_reportFailure now i m :
  (step now (ReportFailure i) m).1 = (reportFailure i now m).1.
Proof. done. Qed.

(** *** A proxy is locked exactly while it is in use *)

Lemma lock_counted_acquire excl now m :
  lock_counted m -> lock_counted (acquire excl now m).1.
Proof.
  intros Hm. destruct (acquire excl now m) as [m' [a|]] eqn:Hacq; simpl.
  - destruct (acquire_granted _ _ _ _ _ Hacq)
      as (state & Hst & Hav & _ & Hpx & Hlk & _).
    apply available_true in Hav as (_ & _ & Hfree & _).
    intros i p. rewrite Hpx, Hlk.
    destruct (decide (i = index a)) as [->|Hne].
    + rewrite list_lookup_insert_eq by (by eapply lookup_lt_Some).
      intros [= <-]. simpl. rewrite (Hm _ _ Hst).
      rewrite decide_False by done. rewrite decide_True by set_solver. done.
    + rewrite list_lookup_insert_ne by done. intros Hp.
      rewrite (Hm _ _ Hp). repeat case_decide; set_solver.
  - destruct (acquire_suspended _ _ _ _ Hacq) as (Hpx & Hlk & _).
    intros i p. rewrite Hpx, Hlk. apply Hm.
Qed.

Lemma lock_counted_observe_release idx m :
  lock_counted m -> lock_counted (observe_release idx m).1.
Proof.
  intros Hm. unfold observe_release.
  destruct (release idx m) as [m'|err] eqn:Hrel; simpl; [|done].
  destruct (release_Some _ _ _ Hrel) as (state & Hst & Hpx & Hlk & _).
  intros i p. rewrite Hpx, Hlk.
  pose proof (Hm _ _ Hst) as Hcur.
  destruct (decide (i = idx)) as [->|Hne].
  - rewrite decide_False by set_solver.
    destruct (0 <? current state) eqn:Hpos.
    + rewrite list_lookup_insert_eq by (by eapply lookup_lt_Some).
      intros [= <-]. simpl. apply Z.ltb_lt in Hpos.
      destruct (decide (idx ∈ lockedIndexes m)); lia.
    + intros Hp. assert (p = state) as -> by congruence.
      apply Z.ltb_ge in Hpos.
      destruct (decide (idx ∈ lockedIndexes m)); lia.
  - intros Hp.
    assert (proxies m !! i = Some p) as Hp'.
    { destruct (0 <? current state); [|done].
      by rewrite list_lookup_insert_ne in Hp. }
    rewrite (Hm _ _ Hp'). repeat case_decide; set_solver.
Qed.

Lemma lock_counted_step now e m :
  lock_counted m -> lock_counted (step now e m).1.
Proof.
  intros Hm. destruct e as [excl| |idx|k|idx|idx]; simpl.
  - rewrite observe_acquire_fst. by apply lock_counted_acquire.
  - destruct (woken m) as [|excl rest]; [done|].
    rewrite observe_acquire_fst. by apply lock_counted_acquire.
  - by apply lock_counted_observe_release.
  - destruct (timers m !! k) as [[idx due]|]; [|done].
    destruct (due <=? now); [|done].
    by apply lock_counted_observe_release.
  - done.
  - done.
Qed.

Lemma lock_counted_run evs m :
  lock_counted m -> lock_counted (run evs m).1.
Proof.
  revert m. induction evs as [|[now e] rest IH]; intros m Hm; simpl; [done|].
  apply IH. by apply lock_counted_step.
Qed.

Lemma lock_counted_constructor cfgs maxReq :
  lock_counted (constructor cfgs maxReq).
Proof.
  intros i p. simpl. rewrite list_lookup_fmap.
  destruct (cfgs !! i); simpl; [|done]. intros [= <-]. simpl.
  by rewrite decide_False.
Qed.

(** Releasing an idle proxy: nothing of the accounting moves, the
    listeners are fired all the same. *)
Lemma release_idle idx m p :
  lock_counted m ->
  proxies m !! idx = Some p ->
  current p = 0 ->
  release idx m =
    JS.Normal {| proxies := proxies m;
                 maxRequests := maxRequests m;
                 lockedIndexes := lockedIndexes m;
                 failureCount := failureCount m;
                 cooldownUntil := cooldownUntil m;
                 timers := timers m;
                 listeners := [];
                 woken := woken m ++ listeners m |}.
Proof.
  intros Hm Hp H0. unfold release. rewrite Hp, H0. simpl.
  f_equal. f_equal.
  pose proof (Hm _ _ Hp) as Hcur. rewrite H0 in Hcur.
  destruct (decide (idx ∈ lockedIndexes m)); [done|]. set_solver.
Qed.

(** After a release the proxy is idle, whatever it was before. *)
Lemma release_makes_idle idx m m' :
  lock_counted m ->
  release idx m = JS.Normal m' ->
  exists p, proxies m' !! idx = Some p /\ current p = 0.
Proof.
  intros Hm Hrel.
  destruct (release_Some _ _ _ Hrel) as (state & Hst & Hpx & _).
  pose proof (Hm _ _ Hst) as Hcur. rewrite Hpx.
  destruct (0 <? current state) eqn:Hpos.
  - eexists. rewrite list_lookup_insert_eq by (by eapply lookup_lt_Some).
    split; [done|]. simpl. destruct (decide _); [lia|].
    apply Z.ltb_lt in Hpos. lia.
  - exists state. split; [done|]. apply Z.ltb_ge in Hpos.
    destruct (decide _); lia.
Qed.

(** *** Port rotation *)

Lemma take_rotates state (c : Z) :
  ports (config state) <> [] ->
  portIndex state = JS.Num c ->
  0 <= c ->
  let n := Z.of_nat (length (ports (config state))) in
  portIndex (take state) = JS.Num ((c + 1) mod n)
  /\ port (take state) = ports (config state) !! Z.to_nat ((c + 1) mod n).
Proof.
  intros Hne Hc Hpos n. unfold take. simpl. rewrite Hc. simpl.
  destruct (ports (config state)) as [|p0 rest] eqn:Hports; [done|].
  assert (0 < n) as Hn by (subst n; simpl; lia).
  unfold JS.rem, JS.index. simpl length.
  change (Z.of_nat (S (length rest))) with n.
  rewrite Z.rem_mod_nonneg by lia.
  split; [done|].
  pose proof (Z.mod_pos_bound (c + 1) n Hn).
  destruct (0 <=? (c + 1) mod n) eqn:E; [done|]. apply Z.leb_gt in E. lia.
Qed.

Lemma acquire_cursor excl now m i c z :
  cursor_at m i c z -> ports c <> [] -> 0 <= z ->
  match (acquire excl now m).2 with
  | Some a =>
      if decide (index a = i)
      then port (proxy a) = ports c !! Z.to_nat (next_cursor c z)
           /\ cursor_at (acquire excl now m).1 i c (next_cursor c z)
      else cursor_at (acquire excl now m).1 i c z
  | None => cursor_at (acquire excl now m).1 i c z
  end.
Proof.
  intros (p & Hp & Hc & Hz) Hne Hpos.
  destruct (acquire excl now m) as [m' [a|]] eqn:Hacq; simpl.
  - destruct (acquire_granted _ _ _ _ _ Hacq)
      as (state & Hst & _ & Ha & Hpx & _).
    destruct (decide (index a = i)) as [Hi|Hi].
    + rewrite Hi in Hst. assert (state = p) as -> by congruence.
      rewrite <- Hc in Hne.
      destruct (take_rotates p z Hne Hz Hpos) as [Hpi Hport].
      rewrite Hc in Hpi, Hport. fold (next_cursor c z) in Hpi, Hport.
      split; [by rewrite Ha|].
      exists (take p). rewrite Hpx, Hi.
      rewrite list_lookup_insert_eq by (by eapply lookup_lt_Some). done.
    + exists p. rewrite Hpx. by rewrite list_lookup_insert_ne.
  - destruct (acquire_suspended _ _ _ _ Hacq) as (Hpx & _).
    exists p. by rewrite Hpx.
Qed.

Lemma observe_release_cursor idx m i c z :
  cursor_at m i c z ->
  cursor_at (observe_release idx m).1 i c z
  /\ granted_ports i (observe_release idx m).2 = [].
Proof.
  intros (p & Hp & Hc & Hz). unfold observe_release.
  destruct (release idx m) as [m'|err] eqn:Hrel; simpl;
    [|split; [by exists p|done]].
  split; [|done].
  destruct (release_Some _ _ _ Hrel) as (state & Hst & Hpx & _).
  destruct (0 <? current state); [|exists p; by rewrite Hpx].
  destruct (decide (i = idx)) as [->|Hi].
  - assert (state = p) as -> by congruence.
    eexists. rewrite Hpx.
    rewrite list_lookup_insert_eq by (by eapply lookup_lt_Some). done.
  - exists p. rewrite Hpx. by rewrite list_lookup_insert_ne.
Qed.

Lemma observe_acquire_cursor excl now m i c z :
  cursor_at m i c z -> ports c <> [] -> 0 <= z ->
  granted_ports i (observe_acquire (acquire excl now m)).2 = []
  /\ cursor_at (observe_acquire (acquire excl now m)).1 i c z
  \/ granted_ports i (observe_acquire (acquire excl now m)).2
     = [ports c !! Z.to_nat (next_cursor c z)]
     /\ cursor_at (observe_acquire (acquire excl now m)).1 i c (next_cursor c z).
Proof.
  intros Hcur Hne Hpos.
  pose proof (acquire_cursor excl now m i c z Hcur Hne Hpos) as H.
  rewrite observe_acquire_fst. unfold observe_acquire.
  destruct ((acquire excl now m).2) as [a|]; simpl; [|by left].
  destruct (decide (index a = i)) as [Hi|Hi].
  - right. destruct H as [-> ?]. done.
  - by left.
Qed.

Lemma step_cursor now e m i c z :
  cursor_at m i c z -> ports c <> [] -> 0 <= z ->
  granted_ports i (step now e m).2 = []
  /\ cursor_at (step now e m).1 i c z
  \/ granted_ports i (step now e m).2 = [ports c !! Z.to_nat (next_cursor c z)]
     /\ cursor_at (step now e m).1 i c (next_cursor c z).
Proof.
  intros Hcur Hne Hpos. destruct e as [excl| |idx|k|idx|idx]; simpl.
  - by apply observe_acquire_cursor.
  - destruct (woken m) as [|excl rest]; [by left|].
    by apply (observe_acquire_cursor excl now (pop_woken m)).
  - left. by destruct (observe_release_cursor idx m i c z Hcur).
  - destruct (timers m !! k) as [[idx due]|]; [|by left].
    destruct (due <=? now); [|by left].
    left. by destruct (observe_release_cursor idx (drop_timer k m) i c z Hcur).
  - left. split; [by destruct (3 <=? _)|done].
  - by left.
Qed.

Lemma granted_ports_app i os1 os2 :
  granted_ports i (os1 ++ os2) = granted_ports i os1 ++ granted_ports i os2.
Proof. unfold granted_ports. apply omap_app. Qed.

Lemma run_cursor evs m i c z (k : nat) port :
  cursor_at m i c z -> ports c <> [] -> 0 <= z ->
  granted_ports i (run evs m).2 !! k = Some port ->
  port = ports c !! Z.to_nat ((z + Z.of_nat k + 1) mod Z.of_nat (length (ports c))).
Proof.
  intros Hcur Hne. revert m z k Hcur.
  assert (0 < Z.of_nat (length (ports c))) as Hn.
  { destruct (ports c); [done|]. simpl. lia. }
  induction evs as [|[now e] rest IH]; intros m z k Hcur Hpos; simpl; [done|].
  rewrite granted_ports_app.
  destruct (step_cursor now e m i c z Hcur Hne Hpos) as [[-> Hcur']|[-> Hcur']].
  - simpl. by apply IH.
  - destruct k as [|k]; simpl.
    + intros [= <-]. unfold next_cursor. do 3 f_equal. lia.
    + intros Hk. unfold next_cursor in Hcur'.
      rewrite (IH _ _ _ Hcur' ltac:(apply Z.mod_pos_bound; lia) Hk).
      do 2 f_equal.
      rewrite <- Z.add_assoc. rewrite Z.add_mod_idemp_l by lia.
      f_equal. lia.
Qed.

Lemma constructor_cursor cfgs maxReq i c :
  cfgs !! i = Some c -> cursor_at (constructor cfgs maxReq) i c 0.
Proof.
  intros Hc. eexists. simpl. rewrite list_lookup_fmap, Hc. simpl. done.
Qed.

End ProxyPoolFacts.

(** ** UserAgentManager *)

Section UserAgentPoolFacts.
Import UserAgentPool.

Lemma usage_insert ua ua' v m um mx ws :
  usage {| userAgents := um; maxConcurrentUses := mx;
           usageCount := <[ua := v]> (usageCount m); waiters := ws |} ua'
  = if decide (ua = ua') then v else usage m ua'.
Proof.
  unfold usage. simpl. rewrite lookup_insert. by destruct (decide (ua = ua')).
Qed.

Lemma constructor_usage uas mx ua : usage (constructor uas mx) ua = 0.
Proof.
  unfold usage, constructor. simpl.
  assert (forall acc : gmap string Z,
            (forall k v, acc !! k = Some v -> v = 0) ->
            forall k v, foldl (fun usage ua => <[ua := 0]> usage) acc uas !! k
                        = Some v -> v = 0) as H.
  { induction uas as [|u rest IH]; intros acc Hacc; simpl; [done|].
    apply IH. intros k v. rewrite lookup_insert.
    destruct (decide (u = k)); [by intros [= <-]|apply Hacc]. }
  destruct (foldl _ _ _ !! ua) as [v|] eqn:Hv; simpl; [|done].
  eapply (H ∅); [|done]. intros k v'. by rewrite lookup_empty.
Qed.

Lemma getAvailableUserAgent_Some r m ua :
  getAvailableUserAgent r m = Some ua -> usage m ua < maxConcurrentUses m.
Proof.
  unfold getAvailableUserAgent. intros H%find_some. by apply Z.ltb_lt, H.
Qed.

Lemma ua_within_capacity_increment ua m :
  ua_within_capacity m -> usage m ua < maxConcurrentUses m ->
  ua_within_capacity (incrementUsage ua m).
Proof.
  intros Hm Hlt ua'. unfold incrementUsage. rewrite usage_insert. simpl.
  destruct (decide (ua = ua')); [|apply Hm]. specialize (Hm ua). lia.
Qed.

Lemma ua_within_capacity_acquire caller r m :
  ua_within_capacity m -> ua_within_capacity (acquire caller r m).1.
Proof.
  intros Hm. unfold acquire.
  destruct (getAvailableUserAgent r m) as [ua|] eqn:Hav; [|done].
  destruct (decide (ua = EmptyString)); [done|]. simpl.
  apply ua_within_capacity_increment; [done|].
  by apply getAvailableUserAgent_Some in Hav.
Qed.

Lemma ua_within_capacity_release ua m :
  ua_within_capacity m -> ua_within_capacity (release ua m).1.
Proof.
  intros Hm. unfold release.
  destruct (0 <? usage m ua) eqn:Hpos; [|done].
  apply Z.ltb_lt in Hpos. simpl.
  destruct (waiters m) as [|w rest]; simpl.
  - intros ua'. rewrite usage_insert. simpl.
    destruct (decide (ua = ua')); [|apply Hm]. specialize (Hm ua). lia.
  - intros ua'. unfold incrementUsage. rewrite usage_insert. simpl.
    destruct (decide (ua = ua')) as [<-|Hne].
    + rewrite usage_insert. rewrite decide_True by done.
      specialize (Hm ua). lia.
    + rewrite usage_insert. destruct (decide (ua = ua')); [done|apply Hm].
Qed.

Lemma ua_within_capacity_run evs m :
  ua_within_capacity m -> ua_within_capacity (run evs m).1.
Proof.
  revert m. induction evs as [|e rest IH]; intros m Hm; simpl; [done|].
  apply IH. destruct e; simpl.
  - by apply ua_within_capacity_acquire.
  - by apply ua_within_capacity_release.
Qed.

Lemma ua_maxConcurrentUses_run evs m :
  maxConcurrentUses (run evs m).1 = maxConcurrentUses m.
Proof.
  revert m. induction evs as [|e rest IH]; intros m; simpl; [done|].
  rewrite IH. destruct e as [caller r|ua]; simpl.
  - unfold acquire. destruct (getAvailableUserAgent r m) as [u|]; [|done].
    by destruct (decide (u = EmptyString)).
  - unfold release. destruct (0 <? usage m ua); [|done]. simpl.
    by destruct (waiters m).
Qed.

End UserAgentPoolFacts.

(** ** RequestManager *)

Section RateLimiterFacts.
Import RateLimiter.
Context {T E : Type}.
Implicit Types (m : RequestManager T E) (o : outcome T E).
Implicit Types (e : event T E) (evs : list (Z * event T E)).


Lemma settle_frame id o m :
  limits (settle id o m).1 = limits m
  /\ calls (settle id o m).1 = calls m
  /\ heap (settle id o m).1 = heap m
  /\ awaiting (settle id o m).1 = awaiting m
  /\ timers (settle id o m).1 = timers m.
Proof. unfold settle. by destruct (promises m !! id). Qed.




(** *** Registration *)







(** *** The promise of a call *)








(** *** The two branches of [tryExecute], and the shift of the queue *)

Lemma tryExecute_invoked id now m c l :
  calls m !! id = Some c ->
  heap m !! limit c = Some l ->
  Z.of_nat (length (filter (fun ts => now - ts < windowMs l) (requests l)))
    < maxRequests l ->
  heap (tryExecute id now m).1
  = <[limit c := {| maxRequests := maxRequests l;
                    windowMs := windowMs l;
                    requests :=
                      filter (fun ts => now - ts < windowMs l) (requests l)
                      ++ [now];
                    queue := queue l |}]> (heap m)
  /\ (tryExecute id now m).2 = [Invoked id now]
  /\ awaiting (tryExecute id now m).1 = awaiting m ++ [id]
  /\ timers (tryExecute id now m).1 = timers m.
Proof.
  intros Hc Hl Hlt. unfold tryExecute. rewrite Hc, Hl.
  apply Z.ltb_lt in Hlt. by rewrite Hlt.
Qed.


Lemma resume_shift id o now m c l next rest :
  calls m !! id = Some c ->
  heap m !! limit c = Some l ->
  queue l = next :: rest ->
  resume id o now m
  = ((tryExecute next now
        (set_limit (limit c)
           {| maxRequests := maxRequests l; windowMs := windowMs l;
              requests := requests l; queue := rest |}
           (settle id o m).1)).1,
     (settle id o m).2
     ++ (tryExecute next now
           (set_limit (limit c)
              {| maxRequests := maxRequests l; windowMs := windowMs l;
                 requests := requests l; queue := rest |}
              (settle id o m).1)).2).
Proof.
  intros Hc Hl Hq. unfold resume. rewrite Hc.
  destruct (settle_frame id o m) as (_ & _ & -> & _). by rewrite Hl, Hq.
Qed.

(** *** A window filled by two time stamps

    A channel of two requests per second whose two time stamps are not
    negative lets no callback start before the clock reads 1000. *)

Lemma window_full_set_queue h a l q :
  window_full h -> h !! a = Some l ->
  window_full (<[a := {| maxRequests := maxRequests l;
                         windowMs := windowMs l;
                         requests := requests l;
                         queue := q |}]> h).
Proof.
  intros (l0 & t1 & t2 & -> & Hmx & Hw & Hr & H1 & H2) Ha.
  destruct a as [|a]; simpl in Ha; [|done].
  injection Ha as <-. simpl. eexists _, t1, t2. by repeat split.
Qed.

Lemma tryExecute_window_full id now m :
  window_full (heap m) -> 0 <= now < 1000 ->
  window_full (heap (tryExecute id now m).1)
  /\ invocations (tryExecute id now m).2 = [].
Proof.
  intros Hfull Hnow. unfold tryExecute.
  destruct (calls m !! id) as [c|]; [|done].
  destruct (heap m !! limit c) as [l|] eqn:Hl; [|done].
  pose proof Hfull as (l0 & t1 & t2 & Hh & Hmx & Hw & Hr & H1 & H2).
  rewrite Hh in Hl. destruct (limit c) as [|a] eqn:Ha; simpl in Hl; [|done].
  injection Hl as <-. rewrite Hr, Hw, Hmx.
  rewrite filter_cons_True by lia. rewrite filter_cons_True by lia.
  rewrite filter_nil. simpl. split; [|done].
  rewrite Hh. simpl. eexists _, t1, t2. by repeat split.
Qed.

Lemma resume_window_full id o now m :
  window_full (heap m) -> 0 <= now < 1000 ->
  window_full (heap (resume id o now m).1)
  /\ invocations (resume id o now m).2 = [].
Proof.
  intros Hfull Hnow. unfold resume.
  destruct (settle_frame id o m) as (_ & _ & Hh & _).
  assert (invocations (settle id o m).2 = []) as Hs.
  { unfold settle. by destruct (promises m !! id). }
  destruct (calls m !! id) as [c|]; [|by rewrite Hh].
  destruct (heap (settle id o m).1 !! limit c) as [l|] eqn:Hl;
    [|by rewrite Hh].
  destruct (queue l) as [|next rest]; [by rewrite Hh|]. simpl.
  unfold invocations. rewrite omap_app. fold (invocations (settle id o m).2).
  rewrite Hs. simpl.
  apply tryExecute_window_full; [|done]. simpl.
  apply window_full_set_queue; [by rewrite Hh|done].
Qed.

Lemma request_window_full key now m :
  window_full (heap m) -> 0 <= now < 1000 ->
  window_full (heap (request key now m).1)
  /\ invocations (request key now m).2 = [].
Proof.
  intros Hfull Hnow. unfold request.
  destruct (limits m !! key) as [a|]; [|by destruct (truthy _)].
  destruct (heap m !! a) as [l|] eqn:Hl; [|done]. simpl.
  pose proof (window_full_set_queue _ _ _ (queue l ++ [length (calls m)])
                Hfull Hl) as Hfull'.
  destruct (decide _); simpl; [|done].
  unfold invocations. rewrite omap_app. simpl. rewrite app_nil_r.
  by apply tryExecute_window_full.
Qed.

Lemma step_window_full now e m :
  window_full (heap m) -> early (now, e) ->
  window_full (heap (step now e m).1) /\ invocations (step now e m).2 = [].
Proof.
  intros Hfull [Hnow Hreg]. simpl in Hnow, Hreg.
  destruct e as [key mx w|key|k o|k]; simpl; [done| | |].
  - by apply request_window_full.
  - destruct (awaiting m !! k) as [id|]; [|done].
    by apply resume_window_full.
  - destruct (timers m !! k) as [[id t]|]; [|done].
    destruct (t <=? now); [|done]. by apply tryExecute_window_full.
Qed.

Lemma run_window_full evs m :
  window_full (heap m) -> Forall early evs -> invocations (run evs m).2 = [].
Proof.
  intros Hfull H. revert m Hfull.
  induction H as [|[now e] rest He _ IH]; intros m Hfull; [done|].
  simpl. unfold invocations. rewrite omap_app.
  destruct (step_window_full now e m Hfull He) as [Hfull' Hnone].
  fold (invocations (step now e m).2). rewrite Hnone. simpl.
  by apply IH.
Qed.

Lemma step_first_running now e m :
  first_running m -> early (now, e) ->
  first_running (step now e m).1 /\ invocations (step now e m).2 = []
  \/ window_full (heap (step now e m).1)
     /\ invocations (step now e m).2 = [(0%nat, now)].
Proof.
  intros (l & rest & c & Hh & Hmx & Hw & Hr & Hq & Haw & Htm & Hc & Hlc)
         [Hnow Hreg].
  simpl in Hnow, Hreg.
  destruct e as [key mx w|key|k o|k]; simpl; [done| | |].
  - left. unfold request.
    destruct (limits m !! key) as [a|];
      [|destruct (truthy _); (split; [by exists l, rest, c|done])].
    rewrite Hh. destruct a as [|a]; simpl;
      [|split; [by exists l, rest, c|done]].
    rewrite Hq. simpl.
    destruct (decide _) as [Hone|_];
      [destruct rest; simpl in Hone; lia|]. simpl.
    split; [|done].
    eexists _, (rest ++ [length (calls m)]), c. simpl.
    repeat split; try done.
    apply lookup_app_l_Some. done.
  - rewrite Haw. destruct k as [|k]; simpl;
      [|left; split; [by exists l, rest, c|done]].
    right.
    rewrite (resume_shift 0%nat o now (drop_awaiting 0 m) c l 0%nat rest)
      by (simpl; rewrite ?Hlc, ?Hh; done).
    destruct (settle_frame 0%nat o (drop_awaiting 0 m)) as (_ & Hsc & Hsh & _).
    assert (invocations (settle 0%nat o (drop_awaiting 0 m)).2 = []) as Hs.
    { unfold settle. by destruct (promises _ !! _). }
    match goal with
    | |- context [tryExecute 0%nat now ?m'] =>
        destruct (tryExecute_invoked 0%nat now m' c
                    {| maxRequests := maxRequests l; windowMs := windowMs l;
                       requests := requests l; queue := rest |})
          as (Hheap & Hobs & _)
    end.
    { simpl. by rewrite Hsc. }
    { simpl. rewrite Hsh, Hlc. simpl. by rewrite Hh. }
    { simpl. rewrite Hr, Hw, Hmx. rewrite filter_cons_True by lia.
      rewrite filter_nil. simpl. lia. }
    simpl. rewrite Hheap, Hobs. simpl. rewrite Hsh, Hlc. simpl.
    rewrite Hh. simpl.
    unfold invocations. rewrite omap_app.
    fold (invocations (settle 0%nat o (drop_awaiting 0 m)).2). rewrite Hs.
    split; [|done].
    rewrite Hr, Hw. rewrite filter_cons_True by lia. rewrite filter_nil.
    eexists _, 0, now. simpl. repeat split; try done; lia.
  - rewrite Htm. simpl. left. split; [by exists l, rest, c|done].
Qed.

Lemma run_first_running evs m id t :
  first_running m -> Forall early evs ->
  (id, t) ∈ invocations (run evs m).2 -> id = 0%nat.
Proof.
  intros Hm H. revert m Hm.
  induction H as [|[now e] rest He Hrest IH]; intros m Hm; simpl;
    [by intros ?%not_elem_of_nil|].
  unfold invocations. rewrite omap_app.
  fold (invocations (step now e m).2).
  fold (invocations (run rest (step now e m).1).2).
  destruct (step_first_running now e m Hm He) as [[Hm' ->]|[Hfull ->]]; simpl.
  - by apply IH.
  - rewrite (run_window_full rest _ Hfull Hrest).
    by intros [= -> _]%list_elem_of_singleton.
Qed.

Lemma request_eq key now m a l :
  limits m !! key = Some a ->
  heap m !! a = Some l ->
  request key now m
  = let id := length (calls m) in
    let l' := {| maxRequests := maxRequests l; windowMs := windowMs l;
                 requests := requests l; queue := queue l ++ [id] |} in
    let m1 := {| limits := limits m;
                 heap := <[a := l']> (heap m);
                 calls := calls m ++ [{| apiKey := key; limit := a |}];
                 promises := promises m;
                 awaiting := awaiting m;
                 timers := timers m |} in
    if decide (length (queue l') = 1%nat)
    then ((tryExecute id now m1).1, (tryExecute id now m1).2 ++ [Returned id])
    else (m1, [Returned id]).
Proof. intros Ha Hl. unfold request. by rewrite Ha, Hl. Qed.

Lemma three_at_zero_run key :
  run (three_at_zero key) (empty (T:=T) (E:=E))
  = (single_channel (T:=T) (E:=E) key (two_per_second [0] [0; 1; 2]%nat) 3 [0%nat],
     [Invoked 0 0; Returned 0; Returned 1; Returned 2]).
Proof.
  assert (step 0 (RegisterAPI key 2 1000) (empty (T:=T) (E:=E))
          = (single_channel (T:=T) (E:=E) key (two_per_second [] []) 0 [], [])) as H0
    by reflexivity.
  assert (step 0 (Request key) (single_channel (T:=T) (E:=E) key (two_per_second [] []) 0 [])
          = (single_channel (T:=T) (E:=E) key (two_per_second [0] [0%nat]) 1 [0%nat],
             [Invoked 0 0; Returned 0])) as H1.
  { cbn [step]. erewrite request_eq; [|apply lookup_insert_eq|reflexivity].
    reflexivity. }
  assert (step 0 (Request key)
            (single_channel (T:=T) (E:=E) key (two_per_second [0] [0%nat]) 1 [0%nat])
          = (single_channel (T:=T) (E:=E) key (two_per_second [0] [0; 1]%nat) 2 [0%nat],
             [Returned 1])) as H2.
  { cbn [step]. erewrite request_eq; [|apply lookup_insert_eq|reflexivity].
    reflexivity. }
  assert (step 0 (Request key)
            (single_channel (T:=T) (E:=E) key (two_per_second [0] [0; 1]%nat) 2 [0%nat])
          = (single_channel (T:=T) (E:=E) key (two_per_second [0] [0; 1; 2]%nat) 3 [0%nat],
             [Returned 2])) as H3.
  { cbn [step]. erewrite request_eq; [|apply lookup_insert_eq|reflexivity].
    reflexivity. }
  unfold three_at_zero. cbn [run].
  rewrite H0. cbn [fst snd]. rewrite H1. cbn [fst snd].
  rewrite H2. cbn [fst snd]. rewrite H3. reflexivity.
Qed.

Lemma rl_run_app evs1 evs2 m :
  run (evs1 ++ evs2) m
  = ((run evs2 (run evs1 m).1).1, (run evs1 m).2 ++ (run evs2 (run evs1 m).1).2).
Proof.
  revert m. induction evs1 as [|[now e] rest IH]; intros m; simpl.
  - by destruct (run evs2 m).
  - rewrite IH. simpl. by rewrite app_assoc.
Qed.


Lemma three_at_zero_first_running key :
  first_running (run (three_at_zero key) (empty (T:=T) (E:=E))).1.
Proof.
  rewrite three_at_zero_run. cbn [fst].
  exists (two_per_second [0] [0; 1; 2]%nat), [1; 2]%nat,
    {| apiKey := key; limit := 0 |}.
  by repeat split.
Qed.

End RateLimiterFacts.

(** ** RequestManager: no call is left behind *)

Section RateLimiterProgress.
Import RateLimiter RateLimiterRuns.
Context {T E : Type}.
Implicit Types (m : RequestManager T E) (h : list APILimit).
Implicit Types (cs : list call) (F D : nat -> Prop).

(** *** Lists with an element deleted *)




(** *** The invariant, abstractly *)






(** *** What the steps change *)







(** *** The invariant holds in every state a manager can reach *)




(** *** Every call can be brought to its end *)










(** *** A channel that allows no request *)



(** *** Keys that [this.limits] inherits *)


End RateLimiterProgress.

(** * The claims of the specification *)

(** ** C1 *)

(** C1. In a pool whose capacity is not negative, whatever happens after
    construction, the usage counter of every proxy of a ProxyManager and of
    every user-agent of a UserAgentManager stays between 0 and the
    capacity. *)
Theorem usage_within_capacity (capacity : Z) :
  0 <= capacity ->
  (forall cfgs evs i p,
      ProxyPool.proxies
        (ProxyPool.run evs (ProxyPool.constructor cfgs capacity)).1 !! i = Some p ->
      0 <= ProxyPool.current p <= capacity)
  /\ (forall uas evs ua,
         0 <= UserAgentPool.usage
                (UserAgentPool.run evs (UserAgentPool.constructor uas capacity)).1 ua
           <= capacity).
Proof.
  intros Hcap. split.
  - intros cfgs evs i p Hp.
    pose proof (within_capacity_run evs _
                  (within_capacity_constructor cfgs capacity Hcap) i p Hp) as H.
    by rewrite maxRequests_run in H.
  - intros uas evs ua.
    assert (UserAgentPool.ua_within_capacity
            (UserAgentPool.constructor uas capacity)) as H0.
    { intros u. rewrite constructor_usage. simpl. lia. }
    pose proof (ua_within_capacity_run evs _ H0 ua) as H.
    by rewrite ua_maxConcurrentUses_run in H.
Qed.

Lemma usage_within_capacity_witness :
  0 <= 1
  /\ Forall (fun p => 0 <= ProxyPool.current p <= 1)
       (ProxyPool.proxies
          (ProxyPool.run busy_day
             (ProxyPool.constructor [three_ports; three_ports] 1)).1)
  /\ 0 <= UserAgentPool.usage
            (UserAgentPool.run
               [UserAgentPool.Acquire 0 0; UserAgentPool.Acquire 1 0;
                UserAgentPool.Release "UA1"; UserAgentPool.Release "UA1"]
               (UserAgentPool.constructor ["UA1"] 1)).1 "UA1" <= 1.
Proof.
  split; [lia|]. split.
  - apply Forall_lookup. intros i p.
    apply (proj1 (usage_within_capacity 1 ltac:(lia))).
  - apply (proj2 (usage_within_capacity 1 ltac:(lia))).
Defined.

(** ** C4 *)

(** C4. Let the failure counter of proxy [i] be at zero, and let
    [reportFailure(i)] be called three times, at [t1], [t2] and [t3], with
    anything in between except [reportFailure(i)] and [resetFailures(i)].  The
    first two calls leave the cooldown of [i] as it was; the third sets its
    expiry to [t3 + 10000].  From then on, and until the next
    [reportFailure(i)], proxy [i] is on cooldown exactly while the clock reads
    less than [t3 + 10000]: no step grants it before, and the cooldown is no
    obstacle after.  [resetFailures(i)] puts the counter at zero and leaves
    every cooldown expiry as it is. *)
Theorem cooldown_after_three_failures
    (i : nat) (m : ProxyPool.ProxyManager) (t1 t2 t3 : Z)
    (evs1 evs2 evs3 : list (Z * ProxyPool.event)) :
  default 0 (ProxyPool.failureCount m !! i) = 0 ->
  Forall (fun te => ProxyPool.touches_failures i te.2 = false) evs1 ->
  Forall (fun te => ProxyPool.touches_failures i te.2 = false) evs2 ->
  Forall (fun te => ProxyPool.touches_failures i te.2 = false) evs3 ->
  0 <= t3 ->
  let two := [(t1, ProxyPool.ReportFailure i)] ++ evs1
             ++ [(t2, ProxyPool.ReportFailure i)] ++ evs2 in
  let three := two ++ [(t3, ProxyPool.ReportFailure i)] ++ evs3 in
  let m2 := (ProxyPool.run two m).1 in
  let m3 := (ProxyPool.run three m).1 in
  ProxyPool.cooldownUntil m2 !! i = ProxyPool.cooldownUntil m !! i
  /\ ProxyPool.cooldownUntil m3 !! i = Some (t3 + 10000)
  /\ (forall now, ProxyPool.isOnCooldown i now m3 = (now <? t3 + 10000))
  /\ (forall now e a,
         now < t3 + 10000 ->
         ProxyPool.Granted a ∈ (ProxyPool.step now e m3).2 ->
         ProxyPool.index a <> i)
  /\ (forall now excl p,
         t3 + 10000 <= now ->
         ProxyPool.available excl now m3 p i
         = (ProxyPool.current p <? ProxyPool.maxRequests m3)
           && negb (bool_decide (i ∈ excl))
           && negb (bool_decide (i ∈ ProxyPool.lockedIndexes m3)))
  /\ (forall m', ProxyPool.failureCount (ProxyPool.resetFailures i m') !! i = Some 0
                 /\ ProxyPool.cooldownUntil (ProxyPool.resetFailures i m')
                    = ProxyPool.cooldownUntil m').
Proof.
  intros H0 He1 He2 He3 Ht3 two three m2 m3.
  set (a1 := (ProxyPool.step t1 (ProxyPool.ReportFailure i) m).1).
  set (b1 := (ProxyPool.run evs1 a1).1).
  set (a2 := (ProxyPool.step t2 (ProxyPool.ReportFailure i) b1).1).
  assert (m2 = (ProxyPool.run evs2 a2).1) as Hm2.
  { subst m2 two. simpl. rewrite run_app. simpl. done. }
  assert (m3 = (ProxyPool.run evs3
                  (ProxyPool.step t3 (ProxyPool.ReportFailure i) m2).1).1) as Hm3.
  { subst m3 three m2. rewrite run_app. simpl. done. }
  (* the counter and the cooldown after one, two and three failures *)
  assert (ProxyPool.failureCount a1 !! i = Some 1
          /\ ProxyPool.cooldownUntil a1 !! i = ProxyPool.cooldownUntil m !! i)
    as [Hf1 Hc1].
  { subst a1. rewrite step_reportFailure.
    rewrite reportFailure_count, reportFailure_cooldown, H0. done. }
  destruct (run_failures_frame evs1 a1 i He1) as [Hfb1 Hcb1]. fold b1 in Hfb1, Hcb1.
  assert (ProxyPool.failureCount a2 !! i = Some 2
          /\ ProxyPool.cooldownUntil a2 !! i = ProxyPool.cooldownUntil m !! i)
    as [Hf2 Hc2].
  { subst a2. rewrite step_reportFailure.
    rewrite reportFailure_count, reportFailure_cooldown, Hfb1, Hf1, Hcb1. done. }
  destruct (run_failures_frame evs2 a2 i He2) as [Hfm2 Hcm2]. rewrite <- Hm2 in Hfm2, Hcm2.
  assert (ProxyPool.cooldownUntil m3 !! i = Some (t3 + 10000)) as Hc3.
  { rewrite Hm3.
    destruct (run_failures_frame evs3
                (ProxyPool.step t3 (ProxyPool.ReportFailure i) m2).1 i He3)
      as [_ ->].
    rewrite step_reportFailure.
    rewrite reportFailure_cooldown, Hfm2, Hf2. done. }
  split; [by rewrite Hcm2|]. split; [done|].
  assert (forall now, ProxyPool.isOnCooldown i now m3 = (now <? t3 + 10000)) as Hcd.
  { intros now. apply isOnCooldown_set; [done|lia]. }
  split; [done|]. split; [|split].
  - intros now e a Hnow Hg <-.
    destruct (step_granted _ _ _ _ Hg)
      as (excl & m0 & m' & Hacq & _ & _ & _ & _ & Hcool & _).
    destruct (acquire_granted _ _ _ _ _ Hacq) as (st & _ & Hav & _).
    apply available_true in Hav as (_ & _ & _ & Hoff).
    unfold ProxyPool.isOnCooldown in Hoff. rewrite Hcool in Hoff.
    fold (ProxyPool.isOnCooldown (ProxyPool.index a) now m3) in Hoff.
    rewrite Hcd in Hoff. apply Z.ltb_ge in Hoff. lia.
  - intros now excl p Hnow. unfold ProxyPool.available. rewrite Hcd.
    replace (now <? t3 + 10000) with false by (symmetry; apply Z.ltb_ge; lia).
    simpl. by rewrite andb_true_r.
  - intros m'. simpl. by rewrite lookup_insert_eq.
Qed.

Lemma cooldown_after_three_failures_witness :
  let m3 := (ProxyPool.run
               ([(0, ProxyPool.ReportFailure 0)] ++ [(1, ProxyPool.Acquire [])]
                ++ [(2, ProxyPool.ReportFailure 0)] ++ [(3, ProxyPool.Release 0)]
                ++ [(4, ProxyPool.ReportFailure 0)] ++ [])
               (ProxyPool.constructor [three_ports] 1)).1 in
  ProxyPool.cooldownUntil m3 !! 0%nat = Some 10004
  /\ ProxyPool.isOnCooldown 0 10003 m3 = true
  /\ ProxyPool.isOnCooldown 0 10004 m3 = false.
Proof.
  pose proof (cooldown_after_three_failures 0
                (ProxyPool.constructor [three_ports] 1) 0 2 4
                [(1, ProxyPool.Acquire [])] [(3, ProxyPool.Release 0)] []
                eq_refl
                ltac:(by repeat constructor) ltac:(by repeat constructor)
                ltac:(by repeat constructor) ltac:(lia))
    as (_ & H3 & Hcd & _).
  split; [exact H3|]. split; [exact (Hcd 10003)|exact (Hcd 10004)].
Defined.

(** ** C5 *)

(** C5. Whenever a step grants a proxy (a call of [acquire], or a suspended
    call that scans again), and the clock reading is not negative, the
    cooldown expiry of the granted proxy, if it has one, is not later than
    the clock reading. *)
Theorem grant_not_on_cooldown
    (now : Z) (e : ProxyPool.event) (m : ProxyPool.ProxyManager)
    (a : ProxyPool.AcquiredProxy) (until : Z) :
  0 <= now ->
  ProxyPool.Granted a ∈ (ProxyPool.step now e m).2 ->
  ProxyPool.cooldownUntil m !! ProxyPool.index a = Some until ->
  until <= now.
Proof.
  intros Hnow Hg Hu.
  destruct (step_granted _ _ _ _ Hg)
    as (excl & m0 & m' & Hacq & _ & _ & _ & _ & Hcool & _).
  destruct (acquire_granted _ _ _ _ _ Hacq) as (st & _ & Hav & _).
  apply available_true in Hav as (_ & _ & _ & Hoff).
  apply (isOnCooldown_false (ProxyPool.index a) now m0); [done|done|].
  by rewrite Hcool.
Qed.

Lemma grant_not_on_cooldown_witness :
  let m := (ProxyPool.run three_failures
              (ProxyPool.constructor [three_ports] 1)).1 in
  0 <= 10000
  /\ (ProxyPool.index <$> (ProxyPool.acquire [] 10000 m).2) = Some 0%nat
  /\ ProxyPool.cooldownUntil m !! 0%nat = Some 10000
  /\ 10000 <= 10000.
Proof.
  split; [lia|]. split; [reflexivity|]. split; [reflexivity|].
  eapply (grant_not_on_cooldown 10000 (ProxyPool.Acquire [])
            (ProxyPool.run three_failures
               (ProxyPool.constructor [three_ports] 1)).1
            {| ProxyPool.proxy := ProxyPool.take
                 {| ProxyPool.config := three_ports; ProxyPool.current := 0;
                    ProxyPool.portIndex := JS.Num 0;
                    ProxyPool.port := Some 8000 |};
               ProxyPool.index := 0 |}).
  - lia.
  - apply list_elem_of_singleton. reflexivity.
  - reflexivity.
Defined.

(** ** C6 *)

(** C6. A grant of a proxy whose port list is not empty and whose cursor is
    at [c >= 0] moves the cursor to [(c + 1) mod len(ports)] and makes the
    port at the new cursor the active port.  So in a pool built from a
    configuration whose [i]-th proxy has the ports [p0, p1, p2], whatever
    else happens, the grants of proxy [i] hand out [p1, p2, p0, p1, ...]: the
    grant number [n + 1] hands out the port [(n + 1) mod 3]. *)
Theorem port_rotation :
  (forall excl now m m' a state (c : Z),
      ProxyPool.acquire excl now m = (m', Some a) ->
      ProxyPool.proxies m !! ProxyPool.index a = Some state ->
      ProxyPool.ports (ProxyPool.config state) <> [] ->
      ProxyPool.portIndex state = JS.Num c ->
      0 <= c ->
      let n := Z.of_nat (length (ProxyPool.ports (ProxyPool.config state))) in
      ProxyPool.portIndex (ProxyPool.proxy a) = JS.Num ((c + 1) mod n)
      /\ ProxyPool.port (ProxyPool.proxy a)
         = ProxyPool.ports (ProxyPool.config state) !! Z.to_nat ((c + 1) mod n)
      /\ ProxyPool.proxies m' !! ProxyPool.index a = Some (ProxyPool.proxy a))
  /\ (forall cfgs maxReq i cfg (p0 p1 p2 : Z) evs (n : nat) port,
         cfgs !! i = Some cfg ->
         ProxyPool.ports cfg = [p0; p1; p2] ->
         ProxyPool.granted_ports i
           (ProxyPool.run evs (ProxyPool.constructor cfgs maxReq)).2 !! n
         = Some port ->
         port = [p0; p1; p2] !! ((n + 1) mod 3)%nat).
Proof.
  split.
  - intros excl now m m' a state c Hacq Hst Hne Hc Hpos n.
    destruct (acquire_granted _ _ _ _ _ Hacq) as (st & Hst' & _ & Ha & Hpx & _).
    assert (st = state) as -> by congruence.
    destruct (take_rotates state c Hne Hc Hpos) as [Hpi Hport].
    rewrite Ha, Hpx. split; [done|]. split; [done|].
    by rewrite list_lookup_insert_eq by (by eapply lookup_lt_Some).
  - intros cfgs maxReq i cfg p0 p1 p2 evs n port Hcfg Hports Hn.
    pose proof (constructor_cursor cfgs maxReq i cfg Hcfg) as Hcur.
    assert (ProxyPool.ports cfg <> []) as Hne by (by rewrite Hports).
    rewrite (run_cursor evs _ i cfg 0 n port Hcur Hne ltac:(lia) Hn).
    rewrite Hports. f_equal. simpl length.
    replace (0 + Z.of_nat n + 1) with (Z.of_nat (n + 1)) by lia.
    rewrite <- (Nat2Z.inj_mod (n + 1) 3). apply Nat2Z.id.
Qed.

Lemma port_rotation_witness :
  ProxyPool.granted_ports 0
    (ProxyPool.run
       [(0, ProxyPool.Acquire []); (1, ProxyPool.Release 0);
        (2, ProxyPool.Acquire []); (3, ProxyPool.Release 0);
        (4, ProxyPool.Acquire []); (5, ProxyPool.Release 0);
        (6, ProxyPool.Acquire [])]
       (ProxyPool.constructor [three_ports] 1)).2 !! 3%nat = Some (Some 8001)
  /\ Some 8001 = [8000; 8001; 8002] !! ((3 + 1) mod 3)%nat.
Proof.
  split; [reflexivity|].
  apply (proj2 port_rotation [three_ports] 1 0%nat three_ports 8000 8001 8002
           [(0, ProxyPool.Acquire []); (1, ProxyPool.Release 0);
            (2, ProxyPool.Acquire []); (3, ProxyPool.Release 0);
            (4, ProxyPool.Acquire []); (5, ProxyPool.Release 0);
            (6, ProxyPool.Acquire [])] 3%nat (Some 8001));
    reflexivity.
Defined.

(** ** C8 *)

(** C8. A step that grants proxy [i] puts [i] into the lock set.  A proxy in
    the lock set is passed over by every scan, whatever its usage counter and
    the capacity are.  So from a state where [i] is locked, as long as no
    [release(i)] runs (called or fired by a timer), [i] stays locked and no
    step grants it. *)
Theorem locked_until_released :
  (forall now e m a,
      ProxyPool.Granted a ∈ (ProxyPool.step now e m).2 ->
      ProxyPool.index a ∈ ProxyPool.lockedIndexes (ProxyPool.step now e m).1)
  /\ (forall excl now m p i,
         i ∈ ProxyPool.lockedIndexes m ->
         ProxyPool.available excl now m p i = false)
  /\ (forall i m evs,
         i ∈ ProxyPool.lockedIndexes m ->
         forallb (fun o => negb (ProxyPool.is_release_of i o))
           (ProxyPool.run evs m).2 = true ->
         i ∈ ProxyPool.lockedIndexes (ProxyPool.run evs m).1
         /\ forallb (fun o => negb (ProxyPool.is_grant_of i o))
              (ProxyPool.run evs m).2 = true).
Proof.
  split; [|split].
  - intros now e m a Hg.
    destruct (step_granted _ _ _ _ Hg) as (excl & m0 & m' & Hacq & _ & _ & _ & _ & _ & ->).
    by eapply acquire_locks.
  - intros excl now m p i Hi. unfold ProxyPool.available.
    rewrite (bool_decide_eq_true_2 _ Hi). simpl.
    by rewrite andb_false_r.
  - intros i m evs. apply run_keeps_locks.
Qed.

(** Proxy 0 of a pool of capacity 5 is granted once; its counter is at 1,
    far below 5, and the next two calls of [acquire] are suspended. *)
Lemma locked_until_released_witness :
  let m := (ProxyPool.run [(0, ProxyPool.Acquire [])]
              (ProxyPool.constructor [three_ports] 5)).1 in
  let later := [(1, ProxyPool.Acquire []); (2, ProxyPool.Acquire []);
                (3, ProxyPool.ReportFailure 0)] in
  (ProxyPool.current <$> ProxyPool.proxies m !! 0%nat) = Some 1
  /\ 0%nat ∈ ProxyPool.lockedIndexes (ProxyPool.run later m).1
  /\ forallb (fun o => negb (ProxyPool.is_grant_of 0 o))
       (ProxyPool.run later m).2 = true.
Proof.
  split; [reflexivity|].
  apply (proj2 (proj2 locked_until_released) 0%nat
           (ProxyPool.run [(0, ProxyPool.Acquire [])]
              (ProxyPool.constructor [three_ports] 5)).1
           [(1, ProxyPool.Acquire []); (2, ProxyPool.Acquire []);
            (3, ProxyPool.ReportFailure 0)]).
  - apply (bool_decide_unpack _). vm_compute. exact I.
  - reflexivity.
Defined.

(** ** C7 *)

(** Against C7 as stated: [release(0)] on a fresh ProxyManager, whose proxy 0
    is idle, returns without any console call. *)
Lemma release_idle_proxy_is_silent :
  let pool := ProxyPool.constructor [three_ports] 1 in
  (ProxyPool.current <$> ProxyPool.proxies pool !! 0%nat) = Some 0
  /\ (ProxyPool.step 0 (ProxyPool.Release 0) pool).2 = [ProxyPool.Released 0]
  /\ existsb ProxyPool.is_console
       (ProxyPool.step 0 (ProxyPool.Release 0) pool).2 = false.
Proof. by repeat split. Qed.

(** C7, amended.  In every state a ProxyManager can reach, [release(idx)] of
    a proxy whose counter is at 0 returns, writes nothing to the console, and
    leaves the proxies, the capacity, the lock set, the failure counters, the
    cooldowns and the timers as they were (the whole state when no [acquire]
    is suspended; otherwise the suspended calls are woken).  There a second
    [release(idx)] after a first one moves none of these either.  In a
    UserAgentManager, [release(ua)] of a user-agent whose counter is at 0
    returns the state unchanged and warns on the console. *)
Theorem release_of_idle_resource :
  (forall cfgs maxReq evs now idx p,
      let m := (ProxyPool.run evs (ProxyPool.constructor cfgs maxReq)).1 in
      ProxyPool.proxies m !! idx = Some p ->
      ProxyPool.current p = 0 ->
      exists m',
        ProxyPool.release idx m = JS.Normal m'
        /\ (ProxyPool.step now (ProxyPool.Release idx) m).2
           = [ProxyPool.Released idx]
        /\ ProxyPool.proxies m' = ProxyPool.proxies m
        /\ ProxyPool.maxRequests m' = ProxyPool.maxRequests m
        /\ ProxyPool.lockedIndexes m' = ProxyPool.lockedIndexes m
        /\ ProxyPool.failureCount m' = ProxyPool.failureCount m
        /\ ProxyPool.cooldownUntil m' = ProxyPool.cooldownUntil m
        /\ ProxyPool.timers m' = ProxyPool.timers m
        /\ (ProxyPool.listeners m = [] -> m' = m))
  /\ (forall cfgs maxReq evs idx m1 m2,
         let m := (ProxyPool.run evs (ProxyPool.constructor cfgs maxReq)).1 in
         ProxyPool.release idx m = JS.Normal m1 ->
         ProxyPool.release idx m1 = JS.Normal m2 ->
         ProxyPool.proxies m2 = ProxyPool.proxies m1
         /\ ProxyPool.lockedIndexes m2 = ProxyPool.lockedIndexes m1
         /\ ProxyPool.failureCount m2 = ProxyPool.failureCount m1
         /\ ProxyPool.cooldownUntil m2 = ProxyPool.cooldownUntil m1
         /\ ProxyPool.timers m2 = ProxyPool.timers m1)
  /\ (forall m ua,
         UserAgentPool.usage m ua = 0 ->
         UserAgentPool.release ua m = (m, [UserAgentPool.ConsoleWarn ua])).
Proof.
  split; [|split].
  - intros cfgs maxReq evs now idx p m Hp H0.
    assert (ProxyPool.lock_counted m) as Hm
      by apply lock_counted_run, lock_counted_constructor.
    pose proof (release_idle idx m p Hm Hp H0) as Hrel.
    eexists. split; [exact Hrel|]. split.
    { simpl. unfold ProxyPool.observe_release. by rewrite Hrel. }
    do 6 (split; [done|]).
    intros Hl. destruct m; simpl in *. subst. by rewrite app_nil_r.
  - intros cfgs maxReq evs idx m1 m2 m Hrel1 Hrel2.
    assert (ProxyPool.lock_counted m) as Hm
      by apply lock_counted_run, lock_counted_constructor.
    assert (ProxyPool.lock_counted m1) as Hm1.
    { pose proof (lock_counted_observe_release idx m Hm) as H.
      unfold ProxyPool.observe_release in H. by rewrite Hrel1 in H. }
    destruct (release_makes_idle idx m m1 Hm Hrel1) as (p & Hp & H0).
    rewrite (release_idle idx m1 p Hm1 Hp H0) in Hrel2.
    injection Hrel2 as <-. by repeat split.
  - intros m ua H0. unfold UserAgentPool.release. by rewrite H0.
Qed.

Lemma release_of_idle_resource_witness :
  let m := (ProxyPool.run busy_day
              (ProxyPool.constructor [three_ports; three_ports] 1)).1 in
  (ProxyPool.current <$> ProxyPool.proxies m !! 0%nat) = Some 0
  /\ ProxyPool.listeners m = []
  /\ ProxyPool.release 0 m = JS.Normal m.
Proof.
  split; [reflexivity|]. split; [reflexivity|].
  destruct (proj1 release_of_idle_resource
              [three_ports; three_ports] 1 busy_day 0 0%nat
              {| ProxyPool.config := three_ports; ProxyPool.current := 0;
                 ProxyPool.portIndex := JS.Num 1;
                 ProxyPool.port := Some 8001 |}
              eq_refl eq_refl)
    as (m' & Hrel & _ & _ & _ & _ & _ & _ & _ & Hsame).
  rewrite Hrel. f_equal. by apply Hsame.
Defined.

(** ** C9 *)

(** Against C9 as stated: the constructor returns a pool for a proxy with no
    ports; the active port of that proxy is [undefined]. *)
Lemma constructor_accepts_no_ports :
  ProxyPool.new [no_ports] 1
  = JS.Normal (ProxyPool.constructor [no_ports] 1)
  /\ ProxyPool.proxies (ProxyPool.constructor [no_ports] 1)
     = [{| ProxyPool.config := no_ports; ProxyPool.current := 0;
           ProxyPool.portIndex := JS.Num 0; ProxyPool.port := None |}].
Proof. by split. Qed.

(** C9, amended.  The constructor of ProxyManager checks nothing and never
    fails: for every list of configurations and every capacity it returns a
    pool with one proxy per configuration.  The proxy of a configuration with
    no ports starts with its active port [undefined]; a grant of it sets the
    cursor to [NaN] and leaves the port [undefined]. *)
Theorem constructor_never_fails :
  forall cfgs maxReq,
    ProxyPool.new cfgs maxReq = JS.Normal (ProxyPool.constructor cfgs maxReq)
    /\ length (ProxyPool.proxies (ProxyPool.constructor cfgs maxReq))
       = length cfgs
    /\ (forall i cfg,
           cfgs !! i = Some cfg ->
           exists p,
             ProxyPool.proxies (ProxyPool.constructor cfgs maxReq) !! i = Some p
             /\ ProxyPool.config p = cfg
             /\ ProxyPool.current p = 0
             /\ ProxyPool.portIndex p = JS.Num 0
             /\ ProxyPool.port p = ProxyPool.ports cfg !! 0%nat
             /\ (ProxyPool.ports cfg = [] ->
                 ProxyPool.port p = None
                 /\ ProxyPool.portIndex (ProxyPool.take p) = JS.NaN
                 /\ ProxyPool.port (ProxyPool.take p) = None)).
Proof.
  intros cfgs maxReq. split; [done|]. split.
  - simpl. by rewrite length_map.
  - intros i cfg Hcfg. eexists. simpl. rewrite list_lookup_fmap, Hcfg. simpl.
    split; [done|]. do 4 (split; [done|]).
    intros Hports. unfold ProxyPool.take. simpl. by rewrite Hports.
Qed.

(** ** C2 *)

(** C2 fails on the code.  On a channel of two requests per second, three
    calls are made when the clock reads 0.  The callback of the first call
    is invoked at 0; when its promise settles, [queue.shift()] hands
    [tryExecute] of the first call back, so the same callback is invoked a
    second time and takes the second place of the window; the callback of
    the second call is first invoked when the clock reads 1000.  More
    generally, whatever happens while the clock reads less than 1000 (and no
    channel is registered), no callback but that of the first call is
    invoked. *)
Theorem second_call_waits_for_window
    (T E : Type) (o o' : RateLimiter.outcome T E) (key : string) :
  RateLimiter.invocations
    (RateLimiter.run
       (RateLimiter.three_at_zero key
        ++ [(0, RateLimiter.Settle 0 o); (0, RateLimiter.Settle 0 o');
            (1000, RateLimiter.Fire 0)])
       RateLimiter.empty).2
  = [(0%nat, 0); (0%nat, 0); (1%nat, 1000)]
  /\ (forall evs : list (Z * RateLimiter.event T E),
         Forall RateLimiter.early evs ->
         Forall (fun it => it.1 = 0%nat)
           (RateLimiter.invocations
              (RateLimiter.run (RateLimiter.three_at_zero key ++ evs) RateLimiter.empty).2)).
Proof.
  split.
  - rewrite rl_run_app, three_at_zero_run. cbn [fst snd]. reflexivity.
  - intros evs Hevs. rewrite rl_run_app, three_at_zero_run. cbn [fst snd].
    pose proof (three_at_zero_first_running (T:=T) (E:=E) key) as Hfirst.
    rewrite three_at_zero_run in Hfirst. cbn [fst] in Hfirst.
    apply Forall_forall. intros [id t] Hin. simpl.
    unfold RateLimiter.invocations in Hin. rewrite omap_app in Hin.
    apply elem_of_app in Hin as [Hin|Hin].
    + simpl in Hin. by apply list_elem_of_singleton in Hin as [= -> _].
    + by eapply run_first_running.
Qed.

Lemma second_call_waits_for_window_witness :
  Forall (fun it => it.1 = 0%nat)
    (RateLimiter.invocations
       (RateLimiter.run
          (RateLimiter.three_at_zero "x"
           ++ [(0, RateLimiter.Settle 0 (RateLimiter.Fulfilled 7%nat));
               (400, RateLimiter.Settle 0 (RateLimiter.Fulfilled 7%nat));
               (999, RateLimiter.Fire 0)])
          (RateLimiter.empty (T:=nat) (E:=nat))).2).
Proof.
  apply (proj2 (second_call_waits_for_window nat nat
                  (RateLimiter.Fulfilled 7%nat) (RateLimiter.Fulfilled 7%nat)
                  "x")).
  repeat constructor; simpl; lia.
Defined.

(** ** C3 *)

(** C3 fails on the code.  One call is made on a fresh channel and its
    callback rejects.  The rejection reaches the promise of the call, but
    [queue.shift()] then hands [tryExecute] of the same call back: with room
    for two in the window the callback is invoked again at once and a second
    time stamp is recorded; with room for one, a timer is set and the callback
    is invoked again when the window has passed. *)
Theorem rejected_call_runs_twice (T E : Type) (err : E) (key : string) :
  (let r := RateLimiter.run
              [(0, RateLimiter.RegisterAPI key 2 1000);
               (0, RateLimiter.Request key);
               (5, RateLimiter.Settle 0 (RateLimiter.Rejected err))]
              (RateLimiter.empty (T:=T)) in
   r.2 = [RateLimiter.Invoked 0 0; RateLimiter.Returned 0;
          RateLimiter.Settled 0 (RateLimiter.Rejected err);
          RateLimiter.Invoked 0 5]
   /\ RateLimiter.heap r.1
      = [{| RateLimiter.maxRequests := 2; RateLimiter.windowMs := 1000;
            RateLimiter.requests := [0; 5]; RateLimiter.queue := [] |}]
   /\ RateLimiter.promises r.1 !! 0%nat = Some (RateLimiter.Rejected err))
  /\ (let r := RateLimiter.run
                 [(0, RateLimiter.RegisterAPI key 1 100);
                  (0, RateLimiter.Request key);
                  (5, RateLimiter.Settle 0 (RateLimiter.Rejected err));
                  (100, RateLimiter.Fire 0)]
                 (RateLimiter.empty (T:=T)) in
      RateLimiter.invocations r.2 = [(0%nat, 0); (0%nat, 100)]
      /\ RateLimiter.promises r.1 !! 0%nat = Some (RateLimiter.Rejected err)).
Proof.
  assert (forall mx w,
            RateLimiter.run
              [(0, RateLimiter.RegisterAPI key mx w); (0, RateLimiter.Request key)]
              (RateLimiter.empty (T:=T) (E:=E))
            = RateLimiter.request key 0
                (RateLimiter.single_channel key
                   {| RateLimiter.maxRequests := mx; RateLimiter.windowMs := w;
                      RateLimiter.requests := []; RateLimiter.queue := [] |}
                   0 [])) as Hstart.
  { intros mx w. cbn [RateLimiter.run RateLimiter.step fst snd app].
    rewrite app_nil_r.
    change (RateLimiter.registerAPI key mx w RateLimiter.empty)
      with (RateLimiter.single_channel (T:=T) (E:=E) key
              {| RateLimiter.maxRequests := mx; RateLimiter.windowMs := w;
                 RateLimiter.requests := []; RateLimiter.queue := [] |} 0 []).
    by destruct (RateLimiter.request _ _ _). }
  split.
  - change [(0, RateLimiter.RegisterAPI key 2 1000);
            (0, RateLimiter.Request key);
            (5, RateLimiter.Settle 0 (RateLimiter.Rejected err))]
      with ([(0, RateLimiter.RegisterAPI key 2 1000);
             (0, RateLimiter.Request key)]
            ++ [(5, RateLimiter.Settle (T:=T) 0 (RateLimiter.Rejected err))]).
    rewrite rl_run_app, Hstart.
    erewrite request_eq; [|apply lookup_insert_eq|reflexivity].
    by repeat split.
  - change [(0, RateLimiter.RegisterAPI key 1 100);
            (0, RateLimiter.Request key);
            (5, RateLimiter.Settle 0 (RateLimiter.Rejected err));
            (100, RateLimiter.Fire 0)]
      with ([(0, RateLimiter.RegisterAPI key 1 100);
             (0, RateLimiter.Request key)]
            ++ [(5, RateLimiter.Settle (T:=T) 0 (RateLimiter.Rejected err));
                (100, RateLimiter.Fire 0)]).
    rewrite rl_run_app, Hstart.
    erewrite request_eq; [|apply lookup_insert_eq|reflexivity].
    by repeat split.
Qed.

(** ** C10 *)




(** * Further properties of the code *)

(** ** ProxyManager *)

Section ProxyPoolMore.
Import ProxyPool ProxyRuns.

(** *** The set of proxies is fixed *)

Lemma fmap_insert_same {A B} (f : A -> B) (l : list A) i x y :
  l !! i = Some x -> f y = f x -> f <$> <[i := y]> l = f <$> l.
Proof.
  intros Hx Hf. rewrite list_fmap_insert, Hf.
  apply list_insert_id. by rewrite list_lookup_fmap, Hx.
Qed.

Lemma acquire_configs excl now m :
  config <$> proxies (acquire excl now m).1 = config <$> proxies m.
Proof.
  destruct (acquire excl now m) as [m' [a|]] eqn:Hacq; simpl.
  - destruct (acquire_granted _ _ _ _ _ Hacq) as (st & Hst & _ & _ & -> & _).
    by apply (fmap_insert_same config _ _ st).
  - by destruct (acquire_suspended _ _ _ _ Hacq) as (-> & _).
Qed.

Lemma observe_release_configs idx m :
  config <$> proxies (observe_release idx m).1 = config <$> proxies m.
Proof.
  unfold observe_release. destruct (release idx m) as [m'|err] eqn:Hrel; [|done].
  simpl. destruct (release_Some _ _ _ Hrel) as (st & Hst & -> & _).
  destruct (0 <? current st); [|done].
  by apply (fmap_insert_same config _ _ st).
Qed.

Lemma step_configs now e m :
  config <$> proxies (step now e m).1 = config <$> proxies m.
Proof.
  destruct e as [excl| |idx|k|idx|idx]; simpl; try done.
  - rewrite observe_acquire_fst. apply acquire_configs.
  - destruct (woken m) as [|excl rest]; [done|].
    rewrite observe_acquire_fst. apply (acquire_configs excl now (pop_woken m)).
  - apply observe_release_configs.
  - destruct (timers m !! k) as [[idx due]|]; [|done].
    destruct (due <=? now); [|done].
    apply (observe_release_configs idx (drop_timer k m)).
Qed.

Lemma run_configs evs m :
  config <$> proxies (run evs m).1 = config <$> proxies m.
Proof.
  revert m. induction evs as [|[now e] rest IH]; intros m; simpl; [done|].
  rewrite IH. apply step_configs.
Qed.

Lemma constructor_configs cfgs maxReq :
  config <$> proxies (constructor cfgs maxReq) = cfgs.
Proof.
  simpl. induction cfgs as [|c rest IH]; simpl; [done|]. by f_equal.
Qed.

(** *** [findIndex] returns the first match *)

Lemma findIndex_from_first {A} (f : A -> nat -> bool) (arr : list A) (i k : nat) :
  JS.findIndex_from f i arr = Some k ->
  forall j x, (j < k - i)%nat -> arr !! j = Some x -> f x (i + j)%nat = false.
Proof.
  revert i. induction arr as [|y rest IH]; intros i; simpl; [done|].
  destruct (f y i) eqn:Hf.
  - intros [= <-] j x Hj. lia.
  - intros Hk j x Hj Hx. destruct j as [|j]; simpl in Hx.
    + injection Hx as <-. by rewrite Nat.add_0_r.
    + replace (i + S j)%nat with (S i + j)%nat by lia.
      apply (IH _ Hk); [|done].
      destruct (findIndex_from_Some _ _ _ _ Hk) as (_ & Hle & _). lia.
Qed.

Lemma findIndex_from_None {A} (f : A -> nat -> bool) (arr : list A) (i : nat) :
  JS.findIndex_from f i arr = None <->
  forall j x, arr !! j = Some x -> f x (i + j)%nat = false.
Proof.
  revert i. induction arr as [|y rest IH]; intros i; simpl.
  - split; [by intros _ j x|done].
  - destruct (f y i) eqn:Hf.
    + split; [done|]. intros H. specialize (H 0%nat y eq_refl).
      rewrite Nat.add_0_r in H. congruence.
    + rewrite IH. split.
      * intros H j x Hx. destruct j as [|j]; simpl in Hx.
        -- injection Hx as <-. by rewrite Nat.add_0_r.
        -- replace (i + S j)%nat with (S i + j)%nat by lia. by apply H.
      * intros H j x Hx. replace (S i + j)%nat with (i + S j)%nat by lia.
        by apply H.
Qed.

Lemma findIndex_intro {A} (f : A -> nat -> bool) (arr : list A) (k : nat) x :
  arr !! k = Some x -> f x k = true ->
  (forall j y, (j < k)%nat -> arr !! j = Some y -> f y j = false) ->
  JS.findIndex f arr = Some k.
Proof.
  intros Hx Hf Hfirst. unfold JS.findIndex.
  destruct (JS.findIndex_from f 0 arr) as [k'|] eqn:Hfind.
  - destruct (findIndex_from_Some _ _ _ _ Hfind) as (y & _ & Hy & Hfy).
    rewrite Nat.sub_0_r in Hy.
    pose proof (findIndex_from_first _ _ _ _ Hfind) as Hbefore.
    destruct (lt_eq_lt_dec k k') as [[Hlt| ->]|Hgt]; [|done|].
    + specialize (Hbefore k x ltac:(lia) Hx). simpl in Hbefore. congruence.
    + specialize (Hfirst k' y Hgt Hy). congruence.
  - pose proof (proj1 (findIndex_from_None _ _ _) Hfind k x Hx) as H.
    simpl in H. congruence.
Qed.

(** X1. In every state a pool can reach, the usage counter of a proxy is 1
    when the proxy is in the lock set and 0 when it is not: whatever
    [maxRequests] is, no counter ever goes above 1. *)
Theorem counter_follows_lock cfgs maxReq evs i p :
  proxies (run evs (constructor cfgs maxReq)).1 !! i = Some p ->
  current p
  = (if decide (i ∈ lockedIndexes (run evs (constructor cfgs maxReq)).1)
     then 1 else 0)
  /\ 0 <= current p <= 1.
Proof.
  intros Hp.
  pose proof (lock_counted_run evs _ (lock_counted_constructor cfgs maxReq) i p Hp)
    as H.
  split; [done|]. rewrite H. destruct (decide _); lia.
Qed.

Lemma counter_follows_lock_witness :
  Forall (fun p => 0 <= current p <= 1)
    (proxies (run busy_day (constructor [three_ports; three_ports] 5)).1).
Proof.
  apply Forall_lookup. intros i p Hp.
  apply (counter_follows_lock [three_ports; three_ports] 5 busy_day i p Hp).
Defined.

Lemma run_status cfgs maxReq evs :
  config <$> getStatus (run evs (constructor cfgs maxReq)).1 = cfgs
  /\ length (getStatus (run evs (constructor cfgs maxReq)).1) = length cfgs.
Proof.
  assert (config <$> getStatus (run evs (constructor cfgs maxReq)).1 = cfgs) as H.
  { unfold getStatus. by rewrite run_configs, constructor_configs. }
  split; [done|]. rewrite <- H at 2. by rewrite length_fmap.
Qed.

(** X2. The set of proxies is fixed at construction: after any run,
    [getStatus()] lists one state per configuration given to the
    constructor, in the same order and with the same host, ports and
    credentials, and the capacity is the one given. *)
Theorem pool_is_static cfgs maxReq evs :
  config <$> getStatus (run evs (constructor cfgs maxReq)).1 = cfgs
  /\ length (getStatus (run evs (constructor cfgs maxReq)).1) = length cfgs
  /\ maxRequests (run evs (constructor cfgs maxReq)).1 = maxReq.
Proof.
  destruct (run_status cfgs maxReq evs) as [H Hlen].
  split; [done|]. split; [done|]. by rewrite maxRequests_run.
Qed.

(** X3. In every state a pool can reach, [release(index)] returns for an
    index below the number of configured proxies, and for any other index it
    throws a TypeError and leaves the pool exactly as it was. *)
Theorem release_throws_out_of_range cfgs maxReq evs now idx :
  let m := (run evs (constructor cfgs maxReq)).1 in
  ((idx < length cfgs)%nat ->
   exists m', release idx m = JS.Normal m'
              /\ (step now (Release idx) m).2 = [Released idx])
  /\ ((length cfgs <= idx)%nat ->
      release idx m = JS.Throw JS.TypeError
      /\ step now (Release idx) m = (m, [ReleaseThrew idx])).
Proof.
  intros m.
  destruct (run_status cfgs maxReq evs) as [_ Hlen].
  unfold getStatus in Hlen. fold m in Hlen.
  split.
  - intros Hlt.
    destruct (lookup_lt_is_Some_2 (proxies m) idx ltac:(lia)) as [p Hp].
    simpl. unfold observe_release, release. rewrite Hp. eauto.
  - intros Hge.
    assert (proxies m !! idx = None) as Hnone
      by (apply lookup_ge_None_2; lia).
    simpl. unfold observe_release, release. by rewrite Hnone.
Qed.

(** X4. [acquire] is first-fit.  When it grants, the granted proxy is below
    capacity, not excluded, not locked and not on cooldown, and every proxy
    before it fails one of these tests.  It suspends exactly when no proxy
    passes them; in particular it suspends whenever [excludeIndexes] covers
    every index. *)
Theorem acquire_grants_first_available excl now m :
  match (acquire excl now m).2 with
  | Some a =>
      (exists p, proxies m !! index a = Some p
                 /\ current p < maxRequests m
                 /\ (index a ∉ excl)
                 /\ (index a ∉ lockedIndexes m)
                 /\ isOnCooldown (index a) now m = false)
      /\ forall j q, (j < index a)%nat -> proxies m !! j = Some q ->
                     available excl now m q j = false
  | None =>
      forall j q, proxies m !! j = Some q -> available excl now m q j = false
  end
  /\ ((forall j, (j < length (proxies m))%nat -> j ∈ excl) ->
      (acquire excl now m).2 = None).
Proof.
  assert (match (acquire excl now m).2 with
          | Some a =>
              (exists p, proxies m !! index a = Some p
                         /\ current p < maxRequests m
                         /\ (index a ∉ excl)
                         /\ (index a ∉ lockedIndexes m)
                         /\ isOnCooldown (index a) now m = false)
              /\ forall j q, (j < index a)%nat -> proxies m !! j = Some q ->
                             available excl now m q j = false
          | None =>
              forall j q, proxies m !! j = Some q ->
                          available excl now m q j = false
          end) as Hfit.
  { unfold acquire.
    destruct (JS.findIndex _ _) as [idx|] eqn:Hfind.
    - destruct (findIndex_Some _ _ _ Hfind) as (p & Hp & Hav).
      rewrite Hp. simpl. split.
      + exists p. split; [done|]. by apply available_true.
      + intros j q Hj Hq.
        apply (findIndex_from_first _ _ _ _ Hfind j q); [lia|done].
    - simpl. intros j q Hq.
      apply (proj1 (findIndex_from_None _ _ _) Hfind j q Hq). }
  split; [done|].
  intros Hall. destruct ((acquire excl now m).2) as [a|]; [|done].
  destruct Hfit as [(p & Hp & _ & Hex & _) _].
  destruct Hex. apply Hall. by eapply lookup_lt_Some.
Qed.

(** *** Failure counters over a run *)

Lemma run_failure_count evs m i :
  Forall (fun te => is_reset_of i te.2 = false) evs ->
  let c := default 0 (failureCount m !! i) in
  let n := Z.of_nat (length (report_times i evs)) in
  default 0 (failureCount (run evs m).1 !! i) = c + n
  /\ cooldownUntil (run evs m).1 !! i
     = match last (report_times i evs) with
       | Some t => if 3 <=? c + n then Some (t + 10000)
                   else cooldownUntil m !! i
       | None => cooldownUntil m !! i
       end.
Proof.
  intros H. revert m. induction H as [|[now e] rest He _ IH]; intros m.
  { simpl. split; [lia|done]. }
  cbn zeta.
  change (run ((now, e) :: rest) m).1 with (run rest (step now e m).1).1.
  destruct (IH (step now e m).1) as [Hcount Hcool]. cbn zeta in Hcount, Hcool.
  rewrite Hcount, Hcool. clear Hcount Hcool IH.
  set (c := default 0 (failureCount m !! i)).
  simpl in He.
  assert (touches_failures i e = false
          \/ e = ReportFailure i) as [Hno| ->].
  { destruct e as [excl| |idx|k|idx|idx]; simpl in *;
      [by left|by left|by left|by left| |by left].
    destruct (decide (idx = i)) as [->|Hne]; [by right|].
    left. by apply bool_decide_eq_false. }
  - destruct (step_failures_frame now e m i Hno) as [-> ->]. fold c.
    assert (report_times i ((now, e) :: rest) = report_times i rest) as ->.
    { unfold report_times. simpl.
      destruct e as [excl| |idx|k|idx|idx]; simpl in *; try done.
      apply bool_decide_eq_false in Hno. by rewrite decide_False. }
    done.
  - rewrite step_reportFailure, reportFailure_count, reportFailure_cooldown.
    fold c.
    assert (report_times i ((now, ReportFailure i) :: rest)
            = now :: report_times i rest) as ->.
    { unfold report_times. simpl. by rewrite decide_True. }
    change (default 0 (Some (c + 1))) with (c + 1).
    change (length (now :: report_times i rest))
      with (S (length (report_times i rest))).
    split; [lia|].
    destruct (report_times i rest) as [|t ts] eqn:Hts.
    + change (last []) with (@None Z). change (last [now]) with (Some now).
      change (length (@nil Z)) with 0%nat.
      replace (c + 1 + Z.of_nat 0) with (c + 1) by lia.
      replace (c + Z.of_nat 1) with (c + 1) by lia. by destruct (3 <=? c + 1).
    + rewrite (last_cons now). destruct (last (t :: ts)) as [t'|] eqn:Hlast;
        [|by rewrite last_cons in Hlast; destruct (last ts)].
      replace (c + 1 + Z.of_nat (length (t :: ts)))
        with (c + Z.of_nat (S (length (t :: ts)))) by lia.
      destruct (3 <=? c + Z.of_nat (S (length (t :: ts)))) eqn:E; [done|].
      apply Z.leb_gt in E.
      replace (3 <=? c + 1) with false by (symmetry; apply Z.leb_gt; lia).
      done.
Qed.

(** X5. Counted from a fresh pool and as long as [resetFailures(i)] is not
    called, the failure counter of proxy [i] is the number of calls of
    [reportFailure(i)] so far: grants, releases and the expiry of a cooldown
    leave it alone.  The cooldown of [i] is unset before the third such call;
    from the third on, every call sets it anew, to the time of the latest
    call plus 10 seconds. *)
Theorem failures_accumulate cfgs maxReq evs i :
  Forall (fun te => is_reset_of i te.2 = false) evs ->
  let m := (run evs (constructor cfgs maxReq)).1 in
  let n := Z.of_nat (length (report_times i evs)) in
  default 0 (failureCount m !! i) = n
  /\ cooldownUntil m !! i
     = match last (report_times i evs) with
       | Some t => if 3 <=? n then Some (t + 10000) else None
       | None => None
       end.
Proof.
  intros H m n.
  destruct (run_failure_count evs (constructor cfgs maxReq) i H) as [Hc Hu].
  cbn zeta in Hc, Hu. simpl in Hc, Hu. rewrite lookup_empty in Hc, Hu.
  simpl in Hc, Hu. split; [done|]. done.
Qed.

Lemma failures_accumulate_witness :
  let evs := [(0, ReportFailure 0); (1, Acquire []); (2, ReportFailure 0);
              (3, Release 0); (4, ReportFailure 0); (20000, Acquire []);
              (20001, ReportFailure 0)] in
  let m := (run evs (constructor [three_ports] 1)).1 in
  default 0 (failureCount m !! 0%nat) = 4
  /\ cooldownUntil m !! 0%nat = Some 30001.
Proof.
  apply (failures_accumulate [three_ports] 1
           [(0, ReportFailure 0); (1, Acquire []); (2, ReportFailure 0);
            (3, Release 0); (4, ReportFailure 0); (20000, Acquire []);
            (20001, ReportFailure 0)] 0%nat).
  by repeat constructor.
Defined.

(** *** The auto-release timers *)

Lemma acquire_timers excl now m :
  timers (acquire excl now m).1
  = timers m ++ match (acquire excl now m).2 with
                | Some a => [(index a, now + 11000)]
                | None => []
                end.
Proof.
  unfold acquire. destruct (JS.findIndex _ _) as [idx|] eqn:Hfind.
  - destruct (findIndex_Some _ _ _ Hfind) as (p & -> & _). done.
  - simpl. by rewrite app_nil_r.
Qed.

Lemma observe_release_timers idx m :
  timers (observe_release idx m).1 = timers m.
Proof.
  unfold observe_release, release. by destruct (proxies m !! idx).
Qed.

Lemma observe_acquire_timers excl now m :
  exists new,
    timers (observe_acquire (acquire excl now m)).1 = timers m ++ new
    /\ length new
       = length (List.filter is_grant (observe_acquire (acquire excl now m)).2).
Proof.
  rewrite observe_acquire_fst, acquire_timers. unfold observe_acquire.
  destruct ((acquire excl now m).2) as [a|]; eexists; by split.
Qed.

Lemma step_timers now e m :
  is_timeout e = false ->
  exists new,
    timers (step now e m).1 = timers m ++ new
    /\ length new = length (List.filter is_grant (step now e m).2).
Proof.
  destruct e as [excl| |idx|k|idx|idx]; simpl; intros Hno; try done.
  - apply observe_acquire_timers.
  - destruct (woken m) as [|excl rest]; [exists []; by rewrite app_nil_r|].
    apply (observe_acquire_timers excl now (pop_woken m)).
  - exists []. rewrite observe_release_timers, app_nil_r. split; [done|].
    unfold observe_release. by destruct (release idx m).
  - exists []. rewrite app_nil_r. split; [done|]. by destruct (3 <=? _).
  - exists []. by rewrite app_nil_r.
Qed.

Lemma step_length now e m :
  length (proxies (step now e m).1) = length (proxies m).
Proof.
  rewrite <- (length_fmap config (proxies (step now e m).1)).
  by rewrite step_configs, length_fmap.
Qed.

Lemma timers_in_range_step now e m :
  timers_in_range m -> timers_in_range (step now e m).1.
Proof.
  unfold timers_in_range. intros Hm. rewrite step_length.
  assert (forall excl m0,
             timers m0 = timers m -> proxies m0 = proxies m ->
             Forall (fun t => (t.1 < length (proxies m))%nat)
               (timers (acquire excl now m0).1)) as Hacq.
  { intros excl m0 Ht Hp. rewrite acquire_timers, Ht.
    apply Forall_app. split; [done|].
    destruct (acquire excl now m0) as [m' [a|]] eqn:Ha; simpl; [|done].
    destruct (acquire_granted _ _ _ _ _ Ha) as (st & Hst & _).
    repeat constructor. simpl. rewrite <- Hp. by eapply lookup_lt_Some. }
  destruct e as [excl| |idx|k|idx|idx]; simpl; try done.
  - rewrite observe_acquire_fst. by apply Hacq.
  - destruct (woken m) as [|excl rest]; [done|].
    rewrite observe_acquire_fst. by apply Hacq.
  - by rewrite observe_release_timers.
  - destruct (timers m !! k) as [[idx due]|]; [|done].
    destruct (due <=? now); [|done].
    rewrite observe_release_timers. simpl. by apply Forall_delete.
Qed.

Lemma timers_in_range_run evs m :
  timers_in_range m -> timers_in_range (run evs m).1.
Proof.
  revert m. induction evs as [|[now e] rest IH]; intros m Hm; simpl; [done|].
  apply IH. by apply timers_in_range_step.
Qed.

(** X6. Every grant arms one timer, due 11 seconds after the grant, and
    nothing but the firing of a timer removes one: in a run where no timer
    fires, the timers pending at the start stay pending and each grant has
    added one; [release] cancels nothing. *)
Theorem release_cancels_no_timer :
  (forall now e m a,
      Granted a ∈ (step now e m).2 ->
      last (timers (step now e m).1) = Some (index a, now + 11000))
  /\ (forall evs m,
         Forall (fun te => is_timeout te.2 = false) evs ->
         timers m `prefix_of` timers (run evs m).1
         /\ length (timers (run evs m).1)
            = (length (timers m)
               + length (List.filter is_grant (run evs m).2))%nat).
Proof.
  split.
  - intros now e m a Hg.
    destruct (step_granted _ _ _ _ Hg) as (excl & m0 & m' & Hacq & _ & _ & _ & _ & _ & ->).
    pose proof (acquire_timers excl now m0) as Ht. rewrite Hacq in Ht.
    simpl in Ht. rewrite Ht. apply last_snoc.
  - intros evs m H. revert m.
    induction H as [|[now e] rest He _ IH]; intros m; simpl.
    + split; [done|lia].
    + destruct (step_timers now e m He) as (new & Hnew & Hlen).
      destruct (IH (step now e m).1) as [Hpre Hl].
      split.
      * etrans; [|exact Hpre]. rewrite Hnew. by apply prefix_app_r.
      * rewrite Hl, Hnew, length_app, List.filter_app, length_app. lia.
Qed.

Lemma release_cancels_no_timer_witness :
  let evs := [(0, Acquire []); (1, Release 0); (2, Acquire []);
              (3, Release 0); (4, Release 0)] in
  timers (run evs (constructor [three_ports] 1)).1 = [(0%nat, 11000); (0%nat, 11002)]
  /\ length (timers (run evs (constructor [three_ports] 1)).1)
     = (0 + length (List.filter is_grant
                      (run evs (constructor [three_ports] 1)).2))%nat.
Proof.
  split; [reflexivity|].
  apply (proj2 release_cancels_no_timer
           [(0, Acquire []); (1, Release 0); (2, Acquire []);
            (3, Release 0); (4, Release 0)]
           (constructor [three_ports] 1)).
  by repeat constructor.
Defined.

(** X7. A timer does nothing before it is due.  Once due, its firing
    releases its proxy whatever has happened since it was armed: the proxy
    ends with its counter at 0 and outside the lock set, also when the grant
    that armed the timer was released long ago and the proxy is now held
    under a later grant. *)
Theorem timer_forces_release cfgs maxReq evs now k idx due :
  let m := (run evs (constructor cfgs maxReq)).1 in
  timers m !! k = Some (idx, due) ->
  (now < due -> step now (Timeout k) m = (m, []))
  /\ (due <= now ->
      let r := step now (Timeout k) m in
      r.2 = [Released idx]
      /\ (idx ∉ lockedIndexes r.1)
      /\ (exists p, proxies r.1 !! idx = Some p /\ current p = 0)
      /\ timers r.1 = delete k (timers m)).
Proof.
  intros m Hk.
  assert (lock_counted m) as Hlock
    by apply lock_counted_run, lock_counted_constructor.
  assert (timers_in_range m) as Hrange.
  { apply timers_in_range_run. unfold timers_in_range. simpl. constructor. }
  split.
  - intros Hnow. simpl. rewrite Hk.
    by replace (due <=? now) with false by (symmetry; apply Z.leb_gt; lia).
  - intros Hnow r. subst r. simpl. rewrite Hk.
    replace (due <=? now) with true by (symmetry; apply Z.leb_le; lia).
    unfold timers_in_range in Hrange.
    pose proof (proj1 (Forall_lookup _ _) Hrange k (idx, due) Hk) as Hidx.
    simpl in Hidx.
    destruct (lookup_lt_is_Some_2 (proxies m) idx Hidx) as [p Hp].
    destruct (release idx (drop_timer k m)) as [m'|err] eqn:Hrel;
      [|unfold release in Hrel; simpl in Hrel; by rewrite Hp in Hrel].
    unfold observe_release. rewrite Hrel. simpl.
    assert (lock_counted (drop_timer k m)) as Hlock' by exact Hlock.
    destruct (release_makes_idle idx _ m' Hlock' Hrel) as (q & Hq & H0).
    destruct (release_Some _ _ _ Hrel) as (st & _ & _ & Hlk & _).
    split; [done|]. split; [rewrite Hlk; set_solver|]. split; [by exists q|].
    pose proof (observe_release_timers idx (drop_timer k m)) as Ht.
    unfold observe_release in Ht. by rewrite Hrel in Ht.
Qed.

(** The first grant is released by its holder; the second grant then holds
    proxy 0 when the timer of the first grant fires and takes it away. *)
Lemma timer_forces_release_witness :
  let evs := [(0, Acquire []); (1, Release 0); (2, Acquire [])] in
  let m := (run evs (constructor [three_ports] 1)).1 in
  timers m !! 0%nat = Some (0%nat, 11000)
  /\ (0%nat ∈ lockedIndexes m)
  /\ (0%nat ∉ lockedIndexes (step 11000 (Timeout 0) m).1).
Proof.
  split; [reflexivity|]. split; [apply (bool_decide_unpack _); by vm_compute|].
  apply (proj2 (timer_forces_release [three_ports] 1
                  [(0, Acquire []); (1, Release 0); (2, Acquire [])]
                  11000 0 0 11000 eq_refl) ltac:(lia)).
Defined.

(** *** Waking a suspended call *)

(** X8. A call of [acquire] is suspended because no proxy passes its scan.
    When [release(idx)] then frees a proxy that the call does not exclude and
    that is not on cooldown (in a pool of capacity at least 1), the oldest
    suspended call, as soon as it runs again, is granted exactly that
    proxy. *)
Theorem release_then_resume cfgs maxReq evs now idx excl rest p :
  let m := (run evs (constructor cfgs maxReq)).1 in
  listeners m = excl :: rest ->
  woken m = [] ->
  (forall j q, proxies m !! j = Some q -> available excl now m q j = false) ->
  proxies m !! idx = Some p ->
  idx ∉ excl ->
  isOnCooldown idx now m = false ->
  0 < maxReq ->
  let m1 := (step now (Release idx) m).1 in
  exists a,
    (step now Resume m1).2 = [Granted a]
    /\ index a = idx
    /\ woken (step now Resume m1).1 = rest
    /\ (idx ∈ lockedIndexes (step now Resume m1).1).
Proof.
  intros m Hl Hw Hnone Hp Hex Hcd Hmax m1.
  assert (lock_counted m) as Hlock
    by apply lock_counted_run, lock_counted_constructor.
  assert (maxRequests m = maxReq) as Hmx by apply maxRequests_run.
  destruct (release idx m) as [m'|err] eqn:Hrel;
    [|unfold release in Hrel; by rewrite Hp in Hrel].
  assert (m1 = m') as -> by (subst m1; simpl; unfold observe_release; by rewrite Hrel).
  destruct (release_makes_idle idx m m' Hlock Hrel) as (q & Hq & H0).
  destruct (release_Some _ _ _ Hrel) as (st & Hst & Hpx & Hlk & Hfc & Hcu & Hmx').
  assert (woken m' = excl :: rest) as Hw'.
  { unfold release in Hrel. rewrite Hp in Hrel. injection Hrel as <-.
    simpl. by rewrite Hw, Hl. }
  simpl. rewrite Hw'.
  assert (JS.findIndex (available excl now (pop_woken m')) (proxies (pop_woken m'))
          = Some idx) as Hfind.
  { apply (findIndex_intro _ _ idx q); [done| |].
    - unfold available. simpl.
      assert (isOnCooldown idx now (pop_woken m') = false) as ->.
      { unfold isOnCooldown in *. simpl. by rewrite Hcu. }
      rewrite Hmx', Hmx, H0, Hlk.
      replace (0 <? maxReq) with true by (symmetry; apply Z.ltb_lt; lia).
      rewrite (bool_decide_eq_false_2 _ Hex).
      rewrite bool_decide_eq_false_2 by set_solver.
      done.
    - intros j y Hj Hy. simpl in Hy.
      assert (proxies m !! j = Some y) as Hy'.
      { rewrite Hpx in Hy. destruct (0 <? current st); [|done].
        rewrite list_lookup_insert_ne in Hy by lia. done. }
      rewrite <- (Hnone j y Hy').
      assert (j <> idx) as Hne by lia.
      unfold available, isOnCooldown. simpl. rewrite Hmx', Hlk, Hcu.
      replace (bool_decide (j ∈ lockedIndexes m ∖ {[idx]}))
        with (bool_decide (j ∈ lockedIndexes m))
        by (apply bool_decide_ext; set_solver).
      done. }
  unfold acquire. rewrite Hfind. simpl. rewrite Hq. simpl.
  eexists. split; [done|]. split; [done|]. split; [by rewrite Hw'|].
  set_solver.
Qed.

(** Two proxies of capacity 1 are granted, a third call is suspended; proxy
    1 is released and the suspended call gets it. *)
Lemma release_then_resume_witness :
  let evs := [(0, Acquire []); (0, Acquire []); (0, Acquire [])] in
  let m := (run evs (constructor [three_ports; three_ports] 1)).1 in
  listeners m = [[]]
  /\ exists a, (step 3 Resume (step 3 (Release 1) m).1).2 = [Granted a]
               /\ index a = 1%nat.
Proof.
  split; [reflexivity|].
  destruct (release_then_resume [three_ports; three_ports] 1
              [(0, Acquire []); (0, Acquire []); (0, Acquire [])] 3 1 [] []
              {| config := three_ports; current := 1;
                 portIndex := JS.Num 1; port := Some 8001 |}
              eq_refl eq_refl)
    as (a & Ha & Hi & _).
  - intros j q Hq. destruct j as [|[|j]]; simpl in Hq; [| |done];
      injection Hq as <-; reflexivity.
  - reflexivity.
  - apply not_elem_of_nil.
  - reflexivity.
  - lia.
  - by exists a.
Defined.

End ProxyPoolMore.

(** ** UserAgentManager *)

Section UserAgentPoolMore.
Import UserAgentPool UserAgentRuns.

Lemma shuffle_elem_of r l ua : ua ∈ shuffle r l <-> ua ∈ l.
Proof.
  unfold shuffle. destruct (permutations l !! r) as [l'|] eqn:Hl'; [|done].
  simpl. apply list_elem_of_lookup_2 in Hl'.
  apply permutations_Permutation in Hl'. by rewrite Hl'.
Qed.

Lemma getAvailableUserAgent_elem r m ua :
  getAvailableUserAgent r m = Some ua -> ua ∈ userAgents m.
Proof.
  unfold getAvailableUserAgent. intros [Hin _]%find_some.
  apply list_elem_of_In in Hin. by apply shuffle_elem_of in Hin.
Qed.

Lemma getAvailableUserAgent_None r m ua :
  getAvailableUserAgent r m = None ->
  ua ∈ userAgents m -> maxConcurrentUses m <= usage m ua.
Proof.
  unfold getAvailableUserAgent. intros Hnone Hin.
  apply (shuffle_elem_of r) in Hin. apply list_elem_of_In in Hin.
  pose proof (find_none _ _ Hnone ua Hin) as H. simpl in H.
  by apply Z.ltb_ge in H.
Qed.

Lemma step_userAgents e m :
  userAgents (step e m).1 = userAgents m
  /\ maxConcurrentUses (step e m).1 = maxConcurrentUses m.
Proof.
  destruct e as [caller r|ua]; simpl.
  - unfold acquire. destruct (getAvailableUserAgent r m) as [u|]; [|done].
    by destruct (decide (u = EmptyString)).
  - unfold release. destruct (0 <? usage m ua); [|done]. simpl.
    by destruct (waiters m).
Qed.

Lemma run_userAgents evs m :
  userAgents (run evs m).1 = userAgents m
  /\ maxConcurrentUses (run evs m).1 = maxConcurrentUses m.
Proof.
  revert m. induction evs as [|e rest IH]; intros m; simpl; [done|].
  destruct (IH (step e m).1) as [-> ->]. apply step_userAgents.
Qed.

(** The counter of [userAgent] after the decrement and the increment of a
    [release] that hands it to a waiter. *)
Lemma usage_handover userAgent rest m ua :
  usage
    (incrementUsage userAgent
       {| userAgents := userAgents m;
          maxConcurrentUses := maxConcurrentUses m;
          usageCount := <[userAgent := usage m userAgent - 1]> (usageCount m);
          waiters := rest |}) ua
  = usage m ua.
Proof.
  unfold incrementUsage. rewrite usage_insert. simpl.
  destruct (decide (userAgent = ua)) as [<-|Hne].
  - rewrite usage_insert, decide_True by done. lia.
  - by rewrite usage_insert, decide_False.
Qed.

Lemma waits_only_when_full_step e m :
  EmptyString ∉ userAgents m ->
  waits_only_when_full m -> waits_only_when_full (step e m).1.
Proof.
  intros Hempty Hm. destruct e as [caller r|ua]; simpl.
  - unfold acquire.
    destruct (getAvailableUserAgent r m) as [u|] eqn:Hav.
    + pose proof (getAvailableUserAgent_elem _ _ _ Hav) as Hin.
      rewrite decide_False by (by intros ->). simpl.
      intros Hw. simpl in Hw.
      pose proof (Hm Hw u Hin) as Hfull.
      apply getAvailableUserAgent_Some in Hav. lia.
    + simpl. intros _ ua Hin. simpl in Hin.
      by apply (getAvailableUserAgent_None r).
  - unfold release. destruct (0 <? usage m ua) eqn:Hpos; [|done]. simpl.
    destruct (waiters m) as [|w rest] eqn:Hw; [by intros ?|].
    intros Hrest u Hin. simpl in Hin. cbn [fst].
    rewrite usage_handover. apply Hm; [by rewrite Hw|done].
Qed.

(** X9. In a pool whose list has no empty string, nobody waits while a
    user-agent is free: in every state the pool can reach, if some call of
    [acquire] is suspended then every user-agent of the pool is at its
    capacity or above. *)
Theorem no_waiter_while_free uas mx evs ua :
  EmptyString ∉ uas ->
  waiters (run evs (constructor uas mx)).1 <> [] ->
  ua ∈ uas ->
  mx <= usage (run evs (constructor uas mx)).1 ua.
Proof.
  intros Hempty Hw Hin.
  assert (forall evs m, EmptyString ∉ userAgents m ->
            waits_only_when_full m -> waits_only_when_full (run evs m).1) as Hrun.
  { clear. intros evs. induction evs as [|e rest IH]; intros m He Hm; [done|].
    simpl. apply IH.
    - by destruct (step_userAgents e m) as [-> _].
    - by apply waits_only_when_full_step. }
  assert (waits_only_when_full (constructor uas mx)) as H0 by (by intros ?).
  pose proof (Hrun evs (constructor uas mx) Hempty H0 Hw ua) as H.
  destruct (run_userAgents evs (constructor uas mx)) as [Hu Hmx].
  rewrite Hu, Hmx in H. by apply H.
Qed.

Lemma no_waiter_while_free_witness :
  let evs := [Acquire 0 0; Acquire 1 3; Acquire 2 1; Release "UA2"; Acquire 3 2] in
  waiters (run evs (constructor ["UA1"; "UA2"] 1)).1 = [3%nat]
  /\ 1 <= usage (run evs (constructor ["UA1"; "UA2"] 1)).1 "UA1".
Proof.
  split; [reflexivity|].
  apply (no_waiter_while_free ["UA1"; "UA2"] 1
           [Acquire 0 0; Acquire 1 3; Acquire 2 1; Release "UA2"; Acquire 3 2]
           "UA1").
  - intros H. by repeat (apply elem_of_cons in H as [H|H]; [done|]);
      apply elem_of_nil in H.
  - done.
  - apply list_elem_of_here.
Defined.

(** *** The empty string is never handed out *)

Lemma empty_never_used_step e m :
  usage m EmptyString = 0 ->
  usage (step e m).1 EmptyString = 0
  /\ Forall (fun o => match o with
                      | Acquired _ ua => ua <> EmptyString
                      | _ => True
                      end) (step e m).2.
Proof.
  intros H0. destruct e as [caller r|ua]; simpl.
  - unfold acquire. destruct (getAvailableUserAgent r m) as [u|].
    + destruct (decide (u = EmptyString)) as [->|Hne]; simpl.
      * split; [done|]. by repeat constructor.
      * split; [|by repeat constructor].
        unfold incrementUsage. rewrite usage_insert. by rewrite decide_False.
    + split; [done|]. by repeat constructor.
  - unfold release. destruct (0 <? usage m ua) eqn:Hpos;
      [|split; [done|by repeat constructor]].
    assert (ua <> EmptyString) as Hne.
    { intros ->. rewrite H0 in Hpos. done. }
    simpl. destruct (waiters m) as [|w rest]; simpl.
    + split; [|constructor]. rewrite usage_insert. by rewrite decide_False.
    + split; [|by repeat constructor]. by rewrite usage_handover.
Qed.

(** X10. The empty string is never handed out: whatever the list of
    user-agents holds, no promise of [acquire] is ever resolved with [""],
    neither at once nor through a [release]. *)
Theorem empty_string_never_acquired uas mx evs :
  Forall (fun o => match o with
                   | Acquired _ ua => ua <> EmptyString
                   | _ => True
                   end) (run evs (constructor uas mx)).2.
Proof.
  assert (forall evs m, usage m EmptyString = 0 ->
            Forall (fun o => match o with
                             | Acquired _ ua => ua <> EmptyString
                             | _ => True
                             end) (run evs m).2) as Hrun.
  { clear. intros evs. induction evs as [|e rest IH]; intros m H0; simpl;
      [constructor|].
    destruct (empty_never_used_step e m H0) as [H0' Hobs].
    apply Forall_app. split; [done|]. by apply IH. }
  apply Hrun, constructor_usage.
Qed.

(** *** The waiters are served in order *)

Lemma step_queue e m :
  waiters m ++ queued_by (e, (step e m).2)
  = served_by (e, (step e m).2) ++ waiters (step e m).1.
Proof.
  destruct e as [caller r|ua]; unfold queued_by, served_by; simpl.
  - unfold acquire. destruct (getAvailableUserAgent r m) as [u|]; [|done].
    destruct (decide (u = EmptyString)); simpl; [done|]. by rewrite app_nil_r.
  - unfold release. destruct (0 <? usage m ua); simpl; [|by rewrite app_nil_r].
    destruct (waiters m) as [|w rest]; simpl; by rewrite ?app_nil_r.
Qed.

Lemma steps_final_queue evs m :
  waiters m ++ (steps evs m ≫= queued_by)
  = (steps evs m ≫= served_by) ++ waiters (run evs m).1.
Proof.
  revert m. induction evs as [|e rest IH]; intros m; simpl.
  - by rewrite app_nil_r.
  - rewrite app_assoc, step_queue, <- !app_assoc. f_equal. apply IH.
Qed.

(** X11. The waiters are served first come, first served, and none is
    lost: at any point of a run from the constructor, the callers that
    [acquire] has suspended so far are, in order, the callers that calls of
    [release] have resolved so far followed by the callers still waiting. *)
Theorem waiters_are_served_in_order uas mx evs :
  steps evs (constructor uas mx) ≫= queued_by
  = (steps evs (constructor uas mx) ≫= served_by)
    ++ waiters (run evs (constructor uas mx)).1.
Proof. apply (steps_final_queue evs (constructor uas mx)). Qed.

(** *** The counter counts the holders *)

Lemma step_usage e m ua :
  usage (step e m).1 ua + Z.of_nat (returns_of ua (e, (step e m).2))
  = usage m ua + Z.of_nat (grants_of ua (e, (step e m).2)).
Proof.
  destruct e as [caller r|u]; unfold grants_of, returns_of; simpl.
  - assert (usage (push_waiter caller m) ua = usage m ua) as Hpush by done.
    unfold acquire.
    destruct (getAvailableUserAgent r m) as [v|]; [|simpl; rewrite Hpush; lia].
    destruct (decide (v = EmptyString)); simpl; [rewrite Hpush; lia|].
    unfold incrementUsage. rewrite usage_insert.
    destruct (decide (v = ua)) as [->|Hne].
    + rewrite bool_decide_eq_true_2 by done. simpl. lia.
    + rewrite bool_decide_eq_false_2 by done. simpl. lia.
  - unfold release. destruct (0 <? usage m u) eqn:Hpos; simpl.
    + destruct (waiters m) as [|w rest]; simpl.
      * rewrite usage_insert.
        destruct (decide (u = ua)) as [->|Hne].
        -- rewrite bool_decide_eq_true_2 by done. simpl. lia.
        -- rewrite bool_decide_eq_false_2 by done. simpl. lia.
      * rewrite usage_handover.
        destruct (decide (u = ua)) as [->|Hne].
        -- rewrite bool_decide_eq_true_2 by done. simpl. lia.
        -- rewrite bool_decide_eq_false_2 by done. simpl. lia.
    + rewrite andb_false_r. simpl. lia.
Qed.

Lemma steps_usage evs m ua :
  usage (run evs m).1 ua
  + Z.of_nat (sum_list (returns_of ua <$> steps evs m))
  = usage m ua + Z.of_nat (sum_list (grants_of ua <$> steps evs m)).
Proof.
  revert m. induction evs as [|e rest IH]; intros m; [simpl; lia|].
  specialize (IH (step e m).1). pose proof (step_usage e m ua) as Hstep.
  cbn [steps]. rewrite !fmap_cons.
  change (run (e :: rest) m).1 with (run rest (step e m).1).1.
  unfold sum_list in *. cbn [sum_list_with]. rewrite !Nat2Z.inj_add.
  unfold id at 1 3. lia.
Qed.

(** X12. The counter of a user-agent counts its holders: after any run
    from the constructor it is the number of promises of [acquire] resolved
    with that user-agent minus the number of calls of [release] for it that
    did not warn. *)
Theorem usage_counts_holders uas mx evs ua :
  usage (run evs (constructor uas mx)).1 ua
  = Z.of_nat (sum_list (grants_of ua <$> steps evs (constructor uas mx)))
    - Z.of_nat (sum_list (returns_of ua <$> steps evs (constructor uas mx))).
Proof.
  pose proof (steps_usage evs (constructor uas mx) ua) as H.
  rewrite constructor_usage in H. lia.
Qed.

End UserAgentPoolMore.

Section RateLimiterMore.
Import RateLimiter RateLimiterRuns.
Context {T E : Type}.
Implicit Types (m : RequestManager T E) (h : list APILimit).
Implicit Types (j : list invocation).

Lemma filter_window_later (w now now' : Z) (ts : list Z) :
  now <= now' ->
  filter (fun t => now' - t < w) (filter (fun t => now - t < w) ts)
  = filter (fun t => now' - t < w) ts.
Proof.
  intros Hle. induction ts as [|x ts IH]; [done|].
  rewrite !filter_cons. repeat case_decide; rewrite ?filter_cons;
    repeat case_decide; try lia; by rewrite IH.
Qed.

Lemma times_of_app (a : nat) j j' :
  times_of a (j ++ j') = times_of a j ++ times_of a j'.
Proof. apply omap_app. Qed.

Lemma times_of_fresh (a : nat) j :
  Forall (fun i => (channel i < a)%nat) j -> times_of a j = [].
Proof.
  induction 1 as [|i j Hi _ IH]; [done|].
  unfold times_of in *. simpl. case_decide; [lia|done].
Qed.

Lemma windows_recorded_later now now2 h j :
  windows_recorded now h j -> now <= now2 -> windows_recorded now2 h j.
Proof.
  intros [Hch Hrec] Hle. split; [done|].
  intros a l now' Hl Hnow'. apply Hrec; [done|lia].
Qed.

Lemma windows_recorded_insert now h j a l l' :
  windows_recorded now h j ->
  h !! a = Some l ->
  requests l' = requests l -> windowMs l' = windowMs l ->
  windows_recorded now (<[a := l']> h) j.
Proof.
  intros [Hch Hrec] Hl Hreq Hwin. split; [by rewrite length_insert|].
  intros b lb now' Hb Hnow'. destruct (decide (b = a)) as [->|Hne].
  - rewrite list_lookup_insert_eq in Hb by by eapply lookup_lt_Some.
    injection Hb as <-. rewrite Hreq, Hwin. by apply Hrec.
  - rewrite list_lookup_insert_ne in Hb by done. by apply Hrec.
Qed.

Lemma windows_recorded_wait now now2 h j a l l' :
  windows_recorded now h j -> now <= now2 ->
  h !! a = Some l ->
  requests l' = filter (fun ts => now2 - ts < windowMs l) (requests l) ->
  windowMs l' = windowMs l ->
  windows_recorded now2 (<[a := l']> h) j.
Proof.
  intros [Hch Hrec] Hle Hl Hreq Hwin. split; [by rewrite length_insert|].
  intros b lb now' Hb Hnow'. destruct (decide (b = a)) as [->|Hne].
  - rewrite list_lookup_insert_eq in Hb by by eapply lookup_lt_Some.
    injection Hb as <-. rewrite Hreq, Hwin.
    rewrite filter_window_later by done. apply Hrec; [done|lia].
  - rewrite list_lookup_insert_ne in Hb by done. apply Hrec; [done|lia].
Qed.

Lemma windows_recorded_invoke now now2 h j a l l' mx :
  windows_recorded now h j -> now <= now2 ->
  h !! a = Some l ->
  requests l'
  = filter (fun ts => now2 - ts < windowMs l) (requests l) ++ [now2] ->
  windowMs l' = windowMs l ->
  windows_recorded now2 (<[a := l']> h)
    (j ++ [{| channel := a; window := windowMs l; allowance := mx;
              time := now2 |}]).
Proof.
  intros [Hch Hrec] Hle Hl Hreq Hwin. split.
  - rewrite length_insert. apply Forall_app. split; [done|].
    apply Forall_singleton. simpl. by eapply lookup_lt_Some.
  - intros b lb now' Hb Hnow'. rewrite times_of_app.
    destruct (decide (b = a)) as [->|Hne].
    + rewrite list_lookup_insert_eq in Hb by by eapply lookup_lt_Some.
      injection Hb as <-. rewrite Hreq, Hwin.
      rewrite !filter_app, filter_window_later by done.
      f_equal; [apply Hrec; [done|lia]|].
      unfold times_of. simpl. by rewrite decide_True.
    + rewrite list_lookup_insert_ne in Hb by done.
      unfold times_of at 2. simpl. rewrite decide_False by done.
      rewrite app_nil_r. apply Hrec; [done|lia].
Qed.

Lemma windows_recorded_register now h j l :
  windows_recorded now h j -> requests l = [] ->
  windows_recorded now (h ++ [l]) j.
Proof.
  intros [Hch Hrec] Hreq. split.
  - rewrite length_app. eapply Forall_impl; [exact Hch|]. simpl. lia.
  - intros b lb now' Hb Hnow'.
    destruct (decide (b < length h)%nat) as [Hlt|Hge].
    + rewrite lookup_app_l in Hb by done. by apply Hrec.
    + rewrite lookup_app_r in Hb by lia.
      apply list_lookup_singleton_Some in Hb as [Hb <-].
      assert (b = length h) as -> by lia.
      by rewrite Hreq, times_of_fresh.
Qed.

Lemma within_rate_snoc j i :
  within_rate j ->
  Z.of_nat (length (filter (fun ts => time i - ts < window i)
                      (times_of (channel i) j))) < allowance i ->
  within_rate (j ++ [i]).
Proof.
  intros Hj Hi k i' Hk.
  destruct (decide (k < length j)%nat) as [Hlt|Hge].
  - rewrite lookup_app_l in Hk by done.
    rewrite take_app_le by lia. by apply Hj.
  - rewrite lookup_app_r in Hk by lia.
    apply list_lookup_singleton_Some in Hk as [Hk <-].
    assert (k = length j) as -> by lia.
    by rewrite take_app_length.
Qed.

Lemma invoked_on_app m (os os' : list (obs T E)) :
  invoked_on m (os ++ os') = invoked_on m os ++ invoked_on m os'.
Proof. apply omap_app. Qed.

Lemma invocations_app (os os' : list (obs T E)) :
  invocations (os ++ os') = invocations os ++ invocations os'.
Proof. apply omap_app. Qed.

(** What a run of [tryExecute] does to the record of the windows. *)
Lemma tryExecute_recorded id now now2 m j :
  windows_recorded now (heap m) j -> within_rate j -> now <= now2 ->
  let r := tryExecute id now2 m in
  windows_recorded now2 (heap r.1) (j ++ invoked_on r.1 r.2)
  /\ within_rate (j ++ invoked_on r.1 r.2)
  /\ time <$> invoked_on r.1 r.2 = (invocations r.2).*2.
Proof.
  intros Hrec Hrate Hle. unfold tryExecute.
  destruct (calls m !! id) as [c|] eqn:Hc;
    [|simpl; rewrite app_nil_r; eauto using windows_recorded_later].
  destruct (heap m !! limit c) as [l|] eqn:Hl;
    [|simpl; rewrite app_nil_r; eauto using windows_recorded_later].
  assert (limit c < length (heap m))%nat as Hlt by by eapply lookup_lt_Some.
  cbv zeta. case_match eqn:Hroom.
  - apply Z.ltb_lt in Hroom.
    unfold invoked_on, invocations.
    cbn [fst snd omap list_omap calls heap fmap list_fmap].
    rewrite Hc, list_lookup_insert_eq by done.
    cbn [maxRequests windowMs mbind option_bind].
    split; [by eapply windows_recorded_invoke|]. split; [|done].
    apply within_rate_snoc; [done|]. cbn [time window channel allowance].
    destruct Hrec as [_ Hrec]. rewrite <- (Hrec _ _ now2 Hl) by done.
    done.
  - unfold invoked_on, invocations.
    cbn [fst snd omap list_omap heap fmap list_fmap]. rewrite app_nil_r.
    split; [by eapply windows_recorded_wait|done].
Qed.

Lemma settle_silent id o m m' :
  invoked_on m' (settle id o m).2 = []
  /\ invocations (settle id o m).2 = [].
Proof. unfold settle. by destruct (promises m !! id). Qed.

Lemma step_recorded now now2 e m j :
  windows_recorded now (heap m) j -> within_rate j -> now <= now2 ->
  let r := step now2 e m in
  windows_recorded now2 (heap r.1) (j ++ invoked_on r.1 r.2)
  /\ within_rate (j ++ invoked_on r.1 r.2)
  /\ time <$> invoked_on r.1 r.2 = (invocations r.2).*2.
Proof.
  intros Hrec Hrate Hle.
  assert (forall m', heap m' = heap m ->
            windows_recorded now2 (heap m') (j ++ [])
            /\ within_rate (j ++ [])
            /\ time <$> @nil invocation = (@nil (nat * Z)).*2) as Hsame.
  { intros m' ->. rewrite app_nil_r.
    eauto using windows_recorded_later. }
  destruct e as [key mx w|key|k o|k]; cbv zeta; cbn [step].
  - cbn [fst snd]. unfold invoked_on. cbn [omap list_omap].
    rewrite app_nil_r. split; [|done]. cbn [registerAPI heap].
    apply windows_recorded_register; [|done].
    by eapply windows_recorded_later.
  - unfold request.
    destruct (limits m !! key) as [a|];
      [|destruct (truthy _); by apply Hsame].
    destruct (heap m !! a) as [l|] eqn:Hl; [|by apply Hsame].
    cbv zeta.
    match goal with
    | |- context [tryExecute ?id now2 ?m1] =>
        pose proof (tryExecute_recorded id now now2 m1 j) as Htry;
        set (t := tryExecute id now2 m1) in *
    end.
    cbn [heap] in Htry.
    assert (windows_recorded now
              (<[a := {| maxRequests := maxRequests l;
                         windowMs := windowMs l;
                         requests := requests l;
                         queue := queue l ++ [length (calls m)] |}]>
                 (heap m)) j) as Hrec1
      by by eapply windows_recorded_insert.
    case_decide.
    + cbn [fst snd]. rewrite invoked_on_app, invocations_app.
      unfold invoked_on at 2 4 6, invocations at 2.
      cbn [omap list_omap]. rewrite !app_nil_r.
      by apply Htry.
    + cbn [fst snd heap]. unfold invoked_on, invocations.
      cbn [omap list_omap]. rewrite app_nil_r.
      eauto using windows_recorded_later.
  - destruct (awaiting m !! k) as [id|]; [|by apply Hsame].
    unfold resume. set (m0 := drop_awaiting k m).
    destruct (settle_frame id o m0) as (_ & _ & Hheap & _).
    assert (forall m', (invoked_on m' (settle id o m0).2 = [])
                       /\ invocations (settle id o m0).2 = []) as Hsilent
      by (intros m'; apply settle_silent).
    assert (windows_recorded now2 (heap (settle id o m0).1)
              (j ++ invoked_on (settle id o m0).1 (settle id o m0).2)
            /\ within_rate
                 (j ++ invoked_on (settle id o m0).1 (settle id o m0).2)
            /\ time <$> invoked_on (settle id o m0).1 (settle id o m0).2
               = (invocations (settle id o m0).2).*2) as Hs.
    { destruct (Hsilent (settle id o m0).1) as [-> ->].
      by apply Hsame. }
    destruct (calls m0 !! id) as [c|]; [|done].
    destruct (heap (settle id o m0).1 !! limit c) as [l|] eqn:Hl; [|done].
    destruct (queue l) as [|next rest]; [done|]. cbv zeta.
    match goal with
    | |- context [tryExecute next now2 ?m1] =>
        pose proof (tryExecute_recorded next now now2 m1 j) as Htry;
        set (t := tryExecute next now2 m1) in *
    end.
    cbn [fst snd]. rewrite invoked_on_app, invocations_app.
    destruct (Hsilent t.1) as [-> ->]. cbn [app].
    apply Htry; [|done..]. cbn [set_limit heap].
    eapply windows_recorded_insert; [|exact Hl|done..].
    by rewrite Hheap.
  - destruct (timers m !! k) as [[id t]|]; [|by apply Hsame].
    case_match; [|by apply Hsame].
    by apply (tryExecute_recorded id now now2 (drop_timer k m) j).
Qed.

Lemma run_recorded evs now m j :
  windows_recorded now (heap m) j -> within_rate j ->
  clock_from now evs.*1 ->
  within_rate (j ++ journal evs m)
  /\ time <$> journal evs m = (invocations (run evs m).2).*2.
Proof.
  revert now m j. induction evs as [|[now2 e] rest IH];
    intros now m j Hrec Hrate Hclock.
  - simpl. by rewrite app_nil_r.
  - destruct Hclock as [Hle Hclock].
    destruct (step_recorded now now2 e m j Hrec Hrate Hle)
      as (Hrec' & Hrate' & Htimes).
    destruct (IH now2 _ _ Hrec' Hrate' Hclock) as [Hrate'' Htimes'].
    cbn [journal run fst snd]. rewrite app_assoc. split; [done|].
    rewrite invocations_app, !fmap_app. by rewrite Htimes, Htimes'.
Qed.

Lemma run_windows_bounded (evs : list (Z * event T E)) :
  windows_bounded (heap (run evs empty).1).
Proof.
  assert (forall id now m,
            windows_bounded (heap m) ->
            windows_bounded (heap (tryExecute id now m).1)) as Htry.
  { intros id now m Hm. unfold tryExecute.
    destruct (calls m !! id) as [c|]; [|done].
    destruct (heap m !! limit c) as [l|] eqn:Hl; [|done].
    pose proof (Forall_lookup_1 _ _ _ _ Hm Hl) as Hb. simpl in Hb.
    pose proof (length_filter (fun ts => now - ts < windowMs l) (requests l))
      as Hf.
    cbv zeta. case_match eqn:Hroom; cbn [fst heap];
      apply Forall_insert; try done; cbn [requests maxRequests].
    - apply Z.ltb_lt in Hroom. rewrite length_app. simpl. lia.
    - lia. }
  assert (forall a l l' h,
            windows_bounded h -> h !! a = Some l ->
            requests l' = requests l -> maxRequests l' = maxRequests l ->
            windows_bounded (<[a := l']> h)) as Hins.
  { intros a l l' h Hh Hl Hreq Hmx. apply Forall_insert; [done|].
    rewrite Hreq, Hmx. apply (Forall_lookup_1 _ _ _ _ Hh Hl). }
  assert (forall now e (m : RequestManager T E),
            windows_bounded (heap m) ->
            windows_bounded (heap (step now e m).1)) as Hstep.
  { intros now e m Hm. destruct e as [key mx w|key|k o|k]; cbn [step].
    - cbn [fst registerAPI heap]. apply Forall_app. split; [done|].
      apply Forall_singleton. simpl. lia.
    - unfold request.
      destruct (limits m !! key) as [a|]; [|by destruct (truthy _)].
      destruct (heap m !! a) as [l|] eqn:Hl; [|done]. cbv zeta.
      case_decide; cbn [fst heap]; [apply Htry; cbn [heap]|];
        by eapply Hins.
    - destruct (awaiting m !! k) as [id|]; [|done].
      unfold resume. set (m0 := drop_awaiting k m).
      destruct (settle_frame id o m0) as (_ & _ & Hheap & _).
      destruct (calls m0 !! id) as [c|]; [|by rewrite Hheap].
      destruct (heap (settle id o m0).1 !! limit c) as [l|] eqn:Hl;
        [|by rewrite Hheap].
      destruct (queue l) as [|next rest]; [by rewrite Hheap|].
      cbn [fst]. apply Htry. cbn [set_limit heap].
      eapply Hins; [|exact Hl|done..]. by rewrite Hheap.
    - destruct (timers m !! k) as [[id t]|]; [|done].
      case_match; [|done]. by apply Htry. }
  assert (forall m, windows_bounded (heap m) ->
            windows_bounded (heap (run evs m).1)) as Hrun.
  { induction evs as [|[now e] rest IH]; intros m Hm; [done|].
    cbn [run fst]. by apply IH, Hstep. }
  apply Hrun. constructor.
Qed.

(** X13. Whatever is done with a manager, and whenever, no channel ever
    stores more time stamps than its [maxRequests] (none when that is
    negative). *)
Theorem window_never_overfull (evs : list (Z * event T E)) (a : nat)
    (l : APILimit) :
  heap (run evs empty).1 !! a = Some l ->
  Z.of_nat (length (requests l)) <= Z.max 0 (maxRequests l).
Proof.
  intros Hl.
  apply (Forall_lookup_1 _ _ _ _ (run_windows_bounded evs) Hl).
Qed.

(** X14. The sliding window is kept: when the clock never goes back, every
    invocation of a callback finds fewer than [maxRequests] earlier
    invocations of its channel within the [windowMs] before it, so no
    window of that length ending at an invocation holds more than
    [maxRequests] of them; and the journal misses no invocation. *)
Theorem invocations_within_rate (evs : list (Z * event T E)) (t0 : Z) :
  clock_from t0 evs.*1 ->
  within_rate (journal evs empty)
  /\ time <$> journal evs empty = (invocations (run evs empty).2).*2.
Proof.
  intros Hclock.
  apply (run_recorded evs t0 empty []); [|by intros k i|done].
  split; [constructor|]. by intros a l now'.
Qed.

(** X15. The retry timer is set for the moment there is room, within
    what a timer can hold.  In a reachable state of a channel that allows at
    least one request, a run of [tryExecute] that finds the window full warns
    with the wait [windowMs - (now - oldest)], which is at least 1.  When
    the wait is at most [TIMEOUT_MAX], the timer is due [windowMs] after the
    oldest time stamp of the window, and [tryExecute], run again at that
    time (the channel untouched in between), invokes the callback.  When the
    wait is larger, the timer is due 1 ms from now, while the oldest time
    stamp is still in the window. *)
Theorem retry_finds_room (evs : list (Z * event T E)) (id : nat) (now : Z)
    (c : call) (l : APILimit) (oldest : Z) (rs : list Z) :
  let m := (run evs empty).1 in
  let wait := windowMs l - (now - oldest) in
  calls m !! id = Some c ->
  heap m !! limit c = Some l ->
  1 <= maxRequests l ->
  filter (fun ts => now - ts < windowMs l) (requests l) = oldest :: rs ->
  maxRequests l <= Z.of_nat (length (oldest :: rs)) ->
  1 <= wait
  /\ (tryExecute id now m).2 = [ConsoleWarn (apiKey c) (JS.Num wait)]
  /\ (wait <= TIMEOUT_MAX ->
      timers (tryExecute id now m).1
      = timers m ++ [(id, oldest + windowMs l)]
      /\ (tryExecute id (oldest + windowMs l) (tryExecute id now m).1).2
         = [Invoked id (oldest + windowMs l)])
  /\ (TIMEOUT_MAX < wait ->
      timers (tryExecute id now m).1 = timers m ++ [(id, now + 1)]
      /\ now + 1 - oldest < windowMs l).
Proof.
  intros m wait Hc Hl Hmx Hreqs Hfull.
  pose proof (run_windows_bounded evs) as Hb. fold m in Hb.
  pose proof (Forall_lookup_1 _ _ _ _ Hb Hl) as Hlen. simpl in Hlen.
  pose proof (length_filter (fun ts => now - ts < windowMs l) (requests l))
    as Hf. rewrite Hreqs in Hf.
  assert (limit c < length (heap m))%nat as Hlt by by eapply lookup_lt_Some.
  assert (now - oldest < windowMs l) as Hin.
  { assert (oldest ∈ filter (fun ts => now - ts < windowMs l) (requests l))
      as Hel by (rewrite Hreqs; by left).
    by apply list_elem_of_filter in Hel as [? _]. }
  split; [unfold wait; lia|].
  assert (tryExecute id now m
          = ({| limits := limits m;
                heap := <[limit c := {| maxRequests := maxRequests l;
                                        windowMs := windowMs l;
                                        requests := oldest :: rs;
                                        queue := queue l |}]> (heap m);
                calls := calls m;
                promises := promises m;
                awaiting := awaiting m;
                timers := timers m ++ [(id, due now (JS.Num wait))] |},
             [ConsoleWarn (apiKey c) (JS.Num wait)])) as ->.
  { unfold tryExecute. rewrite Hc, Hl. cbv zeta. rewrite Hreqs.
    by replace (_ <? _) with false by (symmetry; apply Z.ltb_ge; lia). }
  cbn [fst snd timers due]. split; [done|].
  destruct (Z.leb_spec 1 wait); [|unfold wait in *; lia].
  destruct (Z.leb_spec wait TIMEOUT_MAX); cbn [andb].
  - split; [intros _|intros; lia].
    replace (now + wait) with (oldest + windowMs l) by (unfold wait; lia).
    split; [done|].
    unfold tryExecute. cbn [calls heap]. rewrite Hc.
    rewrite list_lookup_insert_eq by done. cbv zeta.
    cbn [requests windowMs maxRequests].
    rewrite filter_cons, decide_False by lia.
    pose proof (length_filter
                  (fun ts => oldest + windowMs l - ts < windowMs l) rs)
      as Hf'.
    simpl in Hf, Hfull.
    by replace (_ <? _) with true by (symmetry; apply Z.ltb_lt; lia).
  - split; [intros; lia|intros _].
    split; [done|]. unfold wait, TIMEOUT_MAX in *. lia.
Qed.

(** X16. Registering a key again starts a new channel: whatever the window
    and the queue of the key were, the next [request] of the key finds the
    window empty and has its callback invoked at once (when the new
    [maxRequests] is at least 1).  The calls made before still refer to
    the channel they were made on. *)
Theorem registerAPI_starts_afresh (m : RequestManager T E) (key : string)
    (mx w now : Z) :
  1 <= mx ->
  let m' := registerAPI key mx w m in
  (request key now m').2
  = [Invoked (length (calls m)) now; Returned (length (calls m))]
  /\ heap (request key now m').1 !! length (heap m)
     = Some {| maxRequests := mx; windowMs := w; requests := [now];
               queue := [length (calls m)] |}
  /\ (forall a, (a < length (heap m))%nat ->
        heap (request key now m').1 !! a = heap m !! a)
  /\ (forall id, (id < length (calls m))%nat ->
        calls (request key now m').1 !! id = calls m !! id).
Proof.
  intros Hmx m'.
  erewrite request_eq;
    [|unfold m'; cbn [registerAPI limits]; apply lookup_insert_eq
     |unfold m'; cbn [registerAPI heap];
      rewrite lookup_app_r, Nat.sub_diag by done; reflexivity].
  cbv zeta. cbn [queue app length]. rewrite decide_True by done.
  unfold tryExecute. cbn [calls heap fst snd registerAPI m'].
  rewrite lookup_app_r, Nat.sub_diag by done. cbn [lookup list_lookup limit].
  rewrite list_lookup_insert_eq by (rewrite length_app; simpl; lia).
  cbn [requests windowMs maxRequests queue filter list_filter length].
  replace (_ <? _) with true by (symmetry; apply Z.ltb_lt; simpl; lia).
  cbn [fst snd heap calls app]. split; [done|].
  rewrite list_insert_insert_eq.
  split; [|split].
  - rewrite list_lookup_insert_eq by (rewrite length_app; simpl; lia). done.
  - intros a Ha. rewrite list_lookup_insert_ne by lia.
    by rewrite lookup_app_l.
  - intros id Hid. by rewrite lookup_app_l.
Qed.

End RateLimiterMore.

Import RateLimiter RateLimiterRuns.

Lemma window_never_overfull_witness :
  let evs : list (Z * event unit unit) :=
    [(0, RegisterAPI "x" 1 100); (0, Request "x");
     (5, Settle 0%nat (Fulfilled tt)); (100, Fire 0%nat)] in
  heap (run evs empty).1 !! 0%nat
  = Some {| maxRequests := 1; windowMs := 100; requests := [100];
            queue := [] |}
  /\ Z.of_nat (length [100]) <= Z.max 0 1.
Proof.
  intros evs. split; [reflexivity|].
  apply (window_never_overfull evs 0
           {| maxRequests := 1; windowMs := 100; requests := [100];
              queue := [] |}).
  reflexivity.
Defined.

Lemma invocations_within_rate_witness :
  let evs : list (Z * event unit unit) :=
    [(0, RegisterAPI "x" 1 100); (0, Request "x");
     (5, Settle 0%nat (Fulfilled tt)); (100, Fire 0%nat)] in
  clock_from 0 evs.*1
  /\ within_rate (journal evs empty)
  /\ time <$> journal evs empty = (invocations (run evs empty).2).*2.
Proof.
  split; [simpl; lia|].
  apply (invocations_within_rate _ 0). simpl. lia.
Defined.

Lemma retry_finds_room_witness :
  let evs : list (Z * event unit unit) :=
    [(0, RegisterAPI "x" 1 100); (0, Request "x")] in
  let m := (run evs empty).1 in
  (tryExecute 0 5 m).2 = [ConsoleWarn "x" (JS.Num 95)]
  /\ timers (tryExecute 0 5 m).1 = [(0%nat, 100)]
  /\ (tryExecute 0 100 (tryExecute 0 5 m).1).2 = [Invoked 0 100].
Proof.
  intros evs m.
  destruct (retry_finds_room evs 0 5 {| apiKey := "x"; limit := 0 |}
              {| maxRequests := 1; windowMs := 100; requests := [0];
                 queue := [0%nat] |} 0 [])
    as (_ & Hwarn & Hdue & _);
    [reflexivity|reflexivity|simpl; lia|reflexivity|simpl; lia|].
  split; [exact Hwarn|]. apply Hdue. unfold TIMEOUT_MAX. simpl. lia.
Defined.

Lemma registerAPI_starts_afresh_witness :
  let m : RequestManager unit unit :=
    (run [(0, RegisterAPI "x" 1 100); (0, Request "x")] empty).1 in
  (request "x" 1 (registerAPI "x" 1 100 m)).2
  = [Invoked 1 1; Returned 1%nat].
Proof.
  intros m.
  apply (registerAPI_starts_afresh m "x" 1 100 1). lia.
Defined.

Section TimeAgoMore.
Import TimeAgo.

(** X17. The unit that [getTimeAgo] shows for a valid date is decided by
    the whole seconds [s] between the date and now: seconds below one
    minute (also for a date in the future, whose count is negative),
    minutes (1 to 59) below one hour, hours (1 to 23) below one day, days
    (1 or more) from then on; the count is the number of whole units in
    [s]. *)
Theorem getTimeAgo_units (t nowTime inputTime : Z) :
  let s := (nowTime - inputTime) / 1000 in
  let shown := getTimeAgo (JS.Num t) nowTime inputTime in
  (s < 60 -> shown = pretty s +:+ " sec ago")
  /\ (60 <= s < 3600 ->
      shown = pretty (s / 60) +:+ " min ago" /\ 1 <= s / 60 <= 59)
  /\ (3600 <= s < 86400 ->
      shown = pretty (s / 3600) +:+ " hrs ago" /\ 1 <= s / 3600 <= 23)
  /\ (86400 <= s ->
      shown = pretty (s / 86400) +:+ " days ago" /\ 1 <= s / 86400).
Proof.
  intros s shown. unfold shown, getTimeAgo. cbv zeta. fold s.
  assert (s / 60 / 60 = s / 3600) as Hhrs by (by rewrite Zdiv.Zdiv_Zdiv).
  assert (s / 60 / 60 / 24 = s / 86400) as Hdays
    by (by rewrite !Zdiv.Zdiv_Zdiv).
  rewrite Hdays, Hhrs.
  pose proof (Z.div_mod s 60 ltac:(lia)) as H60.
  pose proof (Z.mod_pos_bound s 60 ltac:(lia)) as B60.
  pose proof (Z.div_mod s 3600 ltac:(lia)) as H3600.
  pose proof (Z.mod_pos_bound s 3600 ltac:(lia)) as B3600.
  pose proof (Z.div_mod s 86400 ltac:(lia)) as H86400.
  pose proof (Z.mod_pos_bound s 86400 ltac:(lia)) as B86400.
  repeat split; intros; try lia;
    destruct (Z.ltb_spec s 60), (Z.ltb_spec (s / 60) 60),
      (Z.ltb_spec (s / 3600) 24); try lia; done.
Qed.

End TimeAgoMore.

